(** * health_bot: name resolution, corpus indexing and paging

    A shallow embedding of [health.py]: the text normaliser [_norm], the
    corpus loader [load_foods_merged], the indexer [rebuild_indexes], the
    resolver [search_foods], the confidence check of [cmd_food] and the
    pager [_alphabet_pages]; then the language preferences [get_lang] and
    [set_lang], the listings [_names_sorted] with their commands, the
    callbacks [cb_paging] and [cb_show], the inline query and the text
    dispatch of [on_text]; followed by the properties established for
    them.

    Python [str] values are lists of Unicode code points, Python [int]
    values are [Z], Python dictionaries are insertion-ordered association
    lists, and a raised exception is the [Raise] branch of [result]. *)

From Stdlib Require Import List Bool Arith ZArith NArith QArith Lia.
From Stdlib Require Import Sorted Permutation.
From Stdlib Require Import Ascii.
From Stdlib Require String DecimalString DecimalZ.
Import String.StringSyntax.
Delimit Scope string_scope with string.
Import ListNotations.

Close Scope Q_scope.

(* ================================================================== *)
(** * Python strings *)

Definition char := N.
Definition str := list char.

Module Utf8.
(** Source literals are written as UTF-8 text and decoded to code points. *)

Definition byte (a : ascii) : N := N_of_ascii a.

Definition cont (b : N) : N := N.land b 63.

Fixpoint decode_bytes (fuel : nat) (bs : list N) : str :=
  match fuel with
  | O => []
  | S fuel' =>
      match bs with
      | [] => []
      | b0 :: r0 =>
          if (b0 <? 128)%N then b0 :: decode_bytes fuel' r0
          else if (b0 <? 224)%N then
            match r0 with
            | b1 :: r1 =>
                (N.land b0 31 * 64 + cont b1)%N :: decode_bytes fuel' r1
            | _ => []
            end
          else if (b0 <? 240)%N then
            match r0 with
            | b1 :: b2 :: r2 =>
                (N.land b0 15 * 4096 + cont b1 * 64 + cont b2)%N
                  :: decode_bytes fuel' r2
            | _ => []
            end
          else
            match r0 with
            | b1 :: b2 :: b3 :: r3 =>
                (N.land b0 7 * 262144 + cont b1 * 4096 + cont b2 * 64
                 + cont b3)%N :: decode_bytes fuel' r3
            | _ => []
            end
      end
  end.

Definition decode (s : String.string) : str :=
  let bs := map byte (String.list_ascii_of_string s) in
  decode_bytes (length bs) bs.
End Utf8.

Notation "'u{' s '}'" := (Utf8.decode s%string) (at level 0, s at level 0).

(** Equality and the lexicographic order of [str] (Python compares strings
    code point by code point). *)

Fixpoint str_eqb (a b : str) : bool :=
  match a, b with
  | [], [] => true
  | x :: a', y :: b' => (x =? y)%N && str_eqb a' b'
  | _, _ => false
  end.

Fixpoint str_compare (a b : str) : comparison :=
  match a, b with
  | [], [] => Eq
  | [], _ :: _ => Lt
  | _ :: _, [] => Gt
  | x :: a', y :: b' =>
      match (x ?= y)%N with
      | Eq => str_compare a' b'
      | c => c
      end
  end.

(** [" ".join(parts)] *)
Fixpoint join (sep : str) (parts : list str) : str :=
  match parts with
  | [] => []
  | [p] => p
  | p :: rest => p ++ sep ++ join sep rest
  end.

(* ------------------------------------------------------------------ *)
(** ** Unicode tables used by [str.lower], [str.strip] and [\s] *)

Open Scope N_scope.

Definition in_range (lo hi c : N) : bool := (lo <=? c) && (c <=? hi).

(** [str.isspace] on one code point; [str.strip()] and the regular
    expression class [\s] of a [str] pattern both use this set. *)
Definition isspace (c : char) : bool :=
  in_range 9 13 c || in_range 28 32 c || (c =? 133)%N || (c =? 160)%N
  || (c =? 5760)%N || in_range 8192 8202 c || (c =? 8232)%N || (c =? 8233)%N
  || (c =? 8239)%N || (c =? 8287)%N || (c =? 12288)%N.

(** The lowercase mapping of one code point.  It is tabulated on Basic
    Latin, Latin-1, the Cyrillic block and the two code points outside
    them whose lowercase form contains a Basic Latin letter (U+0130, which
    becomes i followed by U+0307, and U+212A KELVIN SIGN, which becomes k).
    Every other code point is left as it is. *)
Definition lower_char (c : char) : list char :=
  if in_range 65 90 c then [c + 32]                      (* A-Z *)
  else if in_range 192 222 c && negb (c =? 215) then [c + 32]
  else if c =? 304 then [105; 775]                       (* U+0130 *)
  else if in_range 1024 1039 c then [c + 80]             (* U+0400-040F *)
  else if in_range 1040 1071 c then [c + 32]             (* U+0410-042F *)
  else if in_range 1120 1153 c && N.even c then [c + 1]  (* U+0460-0481 *)
  else if in_range 1162 1215 c && N.even c then [c + 1]  (* U+048A-04BF *)
  else if c =? 1216 then [1231]                          (* U+04C0 *)
  else if in_range 1217 1230 c && N.odd c then [c + 1]   (* U+04C1-04CE *)
  else if in_range 1232 1327 c && N.even c then [c + 1]  (* U+04D0-052F *)
  else if c =? 8490 then [107]                           (* U+212A *)
  else if c =? 8491 then [229]                           (* U+212B *)
  else [c].

Definition lower (s : str) : str := flat_map lower_char s.

Fixpoint lstrip (s : str) : str :=
  match s with
  | c :: s' => if isspace c then lstrip s' else s
  | [] => []
  end.

Definition rstrip (s : str) : str := rev (lstrip (rev s)).

Definition strip (s : str) : str := rstrip (lstrip s).

(* ================================================================== *)
(** * Normaliser *)

(** The characters that [[^a-zа-яіїєґ0-9\s\-ʼ']] does not match, that is,
    those [re.sub] keeps. *)
Definition norm_keeps (c : char) : bool :=
  in_range 97 122 c            (* a-z *)
  || in_range 1072 1103 c      (* а-я *)
  || (c =? 1110)%N             (* і *)
  || (c =? 1111)%N             (* ї *)
  || (c =? 1108)%N             (* є *)
  || (c =? 1169)%N             (* ґ *)
  || in_range 48 57 c          (* 0-9 *)
  || isspace c                 (* \s *)
  || (c =? 45)%N               (* - *)
  || (c =? 700)%N              (* ʼ *)
  || (c =? 39)%N.              (* ' *)

Close Scope N_scope.

(** [_norm(s)] for a string [s]; [s or ""] is [s] itself on a string. *)
Definition _norm (s : str) : str := filter norm_keeps (strip (lower s)).

(* ================================================================== *)
(** * Exceptions *)

Inductive exn : Type := KeyError | TypeError | AttributeError | ValueError.

Inductive result (A : Type) : Type :=
| Ok (a : A)
| Raise (e : exn).

Arguments Ok {A} a.
Arguments Raise {A} e.

Definition bind {A B : Type} (m : result A) (k : A -> result B) : result B :=
  match m with
  | Ok a => k a
  | Raise e => Raise e
  end.

Notation "'let*' x ':=' m 'in' k" := (bind m (fun x => k))
  (at level 10, x name, m at level 100, k at level 200).

(* ================================================================== *)
(** * Values read from JSON files, and dictionaries *)

(** What [json.loads] returns.  Numbers are kept as integers; the code
    below observes of a number only whether it is zero. *)
#[warnings="-register-all"]
Inductive json : Type :=
| JNull
| JBool (b : bool)
| JNum (z : Z)
| JStr (s : str)
| JArr (l : list json)
| JObj (d : list (str * json)).

(** A Python [dict] with string keys: bindings in insertion order. *)
Definition dict (V : Type) : Type := list (str * V).

Fixpoint dict_get {V : Type} (k : str) (d : dict V) : option V :=
  match d with
  | [] => None
  | (k', v) :: d' => if str_eqb k' k then Some v else dict_get k d'
  end.

Definition dict_mem {V : Type} (k : str) (d : dict V) : bool :=
  match dict_get k d with
  | Some _ => true
  | None => false
  end.

(** [d[k] = v]: an existing key keeps its position, a new key goes last. *)
Fixpoint dict_set {V : Type} (k : str) (v : V) (d : dict V) : dict V :=
  match d with
  | [] => [(k, v)]
  | (k', v') :: d' =>
      if str_eqb k' k then (k', v) :: d' else (k', v') :: dict_set k v d'
  end.

Definition dict_keys {V : Type} (d : dict V) : list str := map fst d.

(** [{**base, **user}] *)
Definition dict_update {V : Type} (base user : dict V) : dict V :=
  fold_left (fun d kv => dict_set (fst kv) (snd kv) d) user base.

(** [d[k]] *)
Definition dict_item {V : Type} (d : dict V) (k : str) : result V :=
  match dict_get k d with
  | Some v => Ok v
  | None => Raise KeyError
  end.

Definition is_empty {A : Type} (l : list A) : bool :=
  match l with
  | [] => true
  | _ :: _ => false
  end.

(** Truth value of a Python object. *)
Definition truthy (v : json) : bool :=
  match v with
  | JNull => false
  | JBool b => b
  | JNum z => negb (z =? 0)%Z
  | JStr s => negb (is_empty s)
  | JArr l => negb (is_empty l)
  | JObj d => negb (is_empty d)
  end.

(** [a or b] *)
Definition py_or (a b : json) : json := if truthy a then a else b.

(** [it.get(k)]: the value, or [None]. *)
Definition get (it : dict json) (k : str) : json :=
  match dict_get k it with
  | Some v => v
  | None => JNull
  end.

(** Attribute access [v.get] succeeds on a dictionary only. *)
Definition as_dict (v : json) : result (dict json) :=
  match v with
  | JObj d => Ok d
  | _ => Raise AttributeError
  end.

(** Attribute access [v.strip] or [v.lower] succeeds on a string only. *)
Definition as_str (v : json) : result str :=
  match v with
  | JStr s => Ok s
  | _ => Raise AttributeError
  end.

(** Iteration [*v]: the elements of a list, the characters of a string,
    the keys of a dictionary. *)
Definition iter_json (v : json) : result (list json) :=
  match v with
  | JArr l => Ok l
  | JStr s => Ok (map (fun c => JStr [c]) s)
  | JObj d => Ok (map (fun kv => JStr (fst kv)) d)
  | _ => Raise TypeError
  end.

(** [_norm(s)] for an arbitrary value [s]: [(s or "")] then [.lower()]. *)
Definition _norm_json (s : json) : result str :=
  let* t := as_str (py_or s (JStr [])) in Ok (_norm t).

(* ================================================================== *)
(** * Files and the corpus loader *)

Inductive path : Type := FOODS_PATH | USER_FOODS_PATH | USERS_PATH.

(** The state of a file as [_load_json_dict] can observe it: absent,
    present but [read_text] raises, present but [json.loads] raises, or
    present and holding a JSON value. *)
Inductive file : Type :=
| Missing
| Unreadable
| Corrupt
| Holds (v : json).

Definition filesystem : Type := path -> file.

Definition path_eqb (p q : path) : bool :=
  match p, q with
  | FOODS_PATH, FOODS_PATH => true
  | USER_FOODS_PATH, USER_FOODS_PATH => true
  | USERS_PATH, USERS_PATH => true
  | _, _ => false
  end.

Definition path_exists (fs : filesystem) (p : path) : bool :=
  match fs p with
  | Missing => false
  | _ => true
  end.

Definition write_file (fs : filesystem) (p : path) (v : json) : filesystem :=
  fun q => if path_eqb q p then Holds v else fs q.

(** Records written to the logger. *)
Inductive log_record : Type :=
| LogException (p : path)        (* log.exception("cannot read %s", path) *)
| LogWarningEmptyCorpus.         (* log.warning("foods.json empty or missing") *)

Definition log : Type := list log_record.

Definition _load_json_dict (fs : filesystem) (p : path) : json * log :=
  if negb (path_exists fs p) then (JObj [], [])
  else
    match fs p with
    | Holds v => (v, [])
    | _ => (JObj [], [LogException p])
    end.

(** Unpacking [**v] needs a mapping. *)
Definition as_mapping (v : json) : result (dict json) :=
  match v with
  | JObj d => Ok d
  | _ => Raise TypeError
  end.

Definition load_foods_merged (fs : filesystem) : result (dict json) * log :=
  let (base, l1) := _load_json_dict fs FOODS_PATH in
  let (user, l2) :=
    if path_exists fs USER_FOODS_PATH then _load_json_dict fs USER_FOODS_PATH
    else (JObj [], []) in
  match as_mapping base, as_mapping user with
  | Ok b, Ok u0 =>
      let merged := dict_update b u0 in
      (Ok merged,
       l1 ++ l2 ++ (if is_empty merged then [LogWarningEmptyCorpus] else []))
  | Raise e, _ => (Raise e, l1 ++ l2)
  | _, Raise e => (Raise e, l1 ++ l2)
  end.

Definition _save_json_dict (fs : filesystem) (p : path) (data : json)
  : filesystem := write_file fs p data.

Definition _ensure_user_files (fs : filesystem) : filesystem :=
  if negb (path_exists fs USERS_PATH) then _save_json_dict fs USERS_PATH (JObj [])
  else fs.

Definition load_users (fs : filesystem) : filesystem * (json * log) :=
  let fs' := _ensure_user_files fs in
  (fs', _load_json_dict fs' USERS_PATH).

(* ================================================================== *)
(** * Indexer *)

(** The record stored in [FOODS] for one food. *)
Record item : Type := mk_item {
  name_en : str;
  name_uk : str;
  effect : str;
  vitamin_k : json;
  advice_en : json;
  advice_uk : json;
  image : json;
  synonyms_en : json;
  synonyms_uk : json;
  sources : json;
  nutrition : json
}.

Definition one_of (s : str) (l : list str) : bool := existsb (str_eqb s) l.

(** The body of the loop of [rebuild_indexes] up to the construction of
    [item]. *)
Definition make_item (key : str) (it : json) : result item :=
  let* d := as_dict it in
  let* n_en := as_str (py_or (get d u{"name_en"})
                      (py_or (get d u{"en"})
                      (py_or (get d u{"name"}) (JStr key)))) in
  let name_en := strip n_en in
  let* n_uk := as_str (py_or (get d u{"name_uk"})
                      (py_or (get d u{"uk"})
                      (py_or (get d u{"назва"}) (JStr name_en)))) in
  let name_uk := strip n_uk in
  let* e := as_str (py_or (get d u{"effect"}) (JStr u{"neutral"})) in
  let eff := lower (strip e) in
  let eff := if one_of eff [u{"increase"}; u{"decrease"}; u{"neutral"}]
             then eff else u{"neutral"} in
  Ok {| name_en := name_en;
        name_uk := name_uk;
        effect := eff;
        vitamin_k := py_or (get d u{"vitamin_k"}) (JStr []);
        advice_en := py_or (get d u{"advice_en"}) (JStr []);
        advice_uk := py_or (get d u{"advice_uk"})
                       (py_or (get d u{"advice"}) (JStr []));
        image := py_or (get d u{"image"}) (JStr []);
        synonyms_en := py_or (get d u{"synonyms_en"}) (JArr []);
        synonyms_uk := py_or (get d u{"synonyms_uk"}) (JArr []);
        sources := py_or (get d u{"sources"}) (JArr []);
        nutrition := py_or (get d u{"nutrition"}) JNull |}.

(** The list [[name_en, name_uk, *synonyms_en, *synonyms_uk]]. *)
Definition alias_sources (it : item) : result (list json) :=
  let* se := iter_json (synonyms_en it) in
  let* su := iter_json (synonyms_uk it) in
  Ok (JStr (name_en it) :: JStr (name_uk it) :: se ++ su).

(** The inner loop: [ns = _norm(s); if ns: alias[ns] = canon]. *)
Fixpoint register_aliases (canon : str) (ss : list json) (alias : dict str)
  : result (dict str) :=
  match ss with
  | [] => Ok alias
  | s :: ss' =>
      let* ns := _norm_json s in
      register_aliases canon ss'
        (if is_empty ns then alias else dict_set ns canon alias)
  end.

Definition indexes : Type := (dict item * dict str)%type.

(** One iteration of [for key, it in raw.items()]. *)
Definition index_record (st : indexes) (key : str) (it : json)
  : result indexes :=
  let (foods, alias) := st in
  let* i := make_item key it in
  let canon := lower (name_en i) in
  let foods := dict_set canon i foods in
  let* ss := alias_sources i in
  let* alias := register_aliases canon ss alias in
  Ok (foods, alias).

Fixpoint index_records (raw : dict json) (st : indexes) : result indexes :=
  match raw with
  | [] => Ok st
  | (key, it) :: raw' =>
      let* st' := index_record st key it in index_records raw' st'
  end.

(** [rebuild_indexes()] on a loaded corpus. *)
Definition build_indexes (raw : dict json) : result indexes :=
  index_records raw ([], []).

Definition rebuild_indexes (fs : filesystem) : result indexes * log :=
  let (raw, lg) := load_foods_merged fs in
  (let* r := raw in build_indexes r, lg).

(* ================================================================== *)
(** * The standard library's [difflib] *)

(** [SequenceMatcher(None, a, b)] with the default [autojunk=True], and
    [get_close_matches].  Similarity scores are the rationals [2*M/T];
    Python holds them as floats, and the comparisons made on them (with
    each other and with the cutoffs 0.45 and 0.75) agree with those of the
    rationals as long as [T] stays below 2^26. *)
Module difflib.

Section SequenceMatcher.
Variables a b : str.

(** Positions of [x] in [s], counted from [j], in increasing order. *)
Fixpoint positions (x : char) (s : str) (j : nat) : list nat :=
  match s with
  | [] => []
  | y :: s' =>
      if (y =? x)%N then j :: positions x s' (S j) else positions x s' (S j)
  end.

(** [__chain_b]: with 200 or more elements in [b], an element that occurs
    more than [len(b)//100 + 1] times is popular and has no entry. *)
Definition bpopular (x : char) : bool :=
  (200 <=? length b) && (length b / 100 + 1 <? length (positions x b 0)).

Definition b2j (x : char) : list nat :=
  if bpopular x then [] else positions x b 0.

(** [j2len.get(j, 0)] *)
Fixpoint j2len_get (j2len : list (nat * nat)) (j : nat) : nat :=
  match j2len with
  | [] => 0
  | (j', k) :: rest => if j' =? j then k else j2len_get rest j
  end.

(** [j2len.get(j-1, 0)]; no key is negative. *)
Definition j2len_prev (j2len : list (nat * nat)) (j : nat) : nat :=
  match j with
  | O => 0
  | S j' => j2len_get j2len j'
  end.

Definition block : Type := (nat * nat * nat)%type.

(** [for j in b2j.get(a[i], nothing)] *)
Fixpoint scan_row (i blo bhi : nat) (j2len : list (nat * nat))
  (js : list nat) (newj2len : list (nat * nat)) (best : block)
  : list (nat * nat) * block :=
  match js with
  | [] => (newj2len, best)
  | j :: js' =>
      if j <? blo then scan_row i blo bhi j2len js' newj2len best
      else if bhi <=? j then (newj2len, best)
      else
        let k := j2len_prev j2len j + 1 in
        let '(_, _, bestsize) := best in
        scan_row i blo bhi j2len js' ((j, k) :: newj2len)
          (if bestsize <? k then (i + 1 - k, j + 1 - k, k) else best)
  end.

(** [for i in range(alo, ahi)] *)
Fixpoint scan_rows (rows : list nat) (blo bhi : nat)
  (j2len : list (nat * nat)) (best : block) : block :=
  match rows with
  | [] => best
  | i :: rows' =>
      let '(newj2len, best') :=
        scan_row i blo bhi j2len (b2j (nth i a 0%N)) [] best in
      scan_rows rows' blo bhi newj2len best'
  end.

(** [while besti > alo and bestj > blo and a[besti-1] == b[bestj-1]] *)
Fixpoint extend_left (alo blo besti bestj bestsize : nat) : block :=
  match besti with
  | O => (besti, bestj, bestsize)
  | S i' =>
      if (alo <? besti) && (blo <? bestj)
         && (nth i' a 0 =? nth (bestj - 1) b 0)%N
      then extend_left alo blo i' (bestj - 1) (bestsize + 1)
      else (besti, bestj, bestsize)
  end.

(** [while besti+bestsize < ahi and bestj+bestsize < bhi and
    a[besti+bestsize] == b[bestj+bestsize]]; at most [ahi - (besti +
    bestsize)] rounds. *)
Fixpoint extend_right (rounds ahi bhi besti bestj bestsize : nat) : block :=
  match rounds with
  | O => (besti, bestj, bestsize)
  | S r =>
      if (besti + bestsize <? ahi) && (bestj + bestsize <? bhi)
         && (nth (besti + bestsize) a 0 =? nth (bestj + bestsize) b 0)%N
      then extend_right r ahi bhi besti bestj (bestsize + 1)
      else (besti, bestj, bestsize)
  end.

(** No element is junk ([isjunk] is [None]), so the two loops that extend
    a block by junk elements never run. *)
Definition find_longest_match (alo ahi blo bhi : nat) : block :=
  let '(besti, bestj, bestsize) :=
    scan_rows (seq alo (ahi - alo)) blo bhi [] (alo, blo, 0) in
  let '(besti, bestj, bestsize) :=
    extend_left alo blo besti bestj bestsize in
  extend_right (ahi - (besti + bestsize)) ahi bhi besti bestj bestsize.

(** The total size of the blocks of [get_matching_blocks]: the longest
    match of the range, then the ranges to its left and to its right.
    [depth] bounds the nesting; a range of [a] of [ahi - alo] elements
    nests at most that deep. *)
Fixpoint matching_size (depth alo ahi blo bhi : nat) : nat :=
  match depth with
  | O => 0
  | S d =>
      let '(i, j, k) := find_longest_match alo ahi blo bhi in
      if k =? 0 then 0
      else
        k
        + (if (alo <? i) && (blo <? j) then matching_size d alo i blo j
           else 0)
        + (if (i + k <? ahi) && (j + k <? bhi)
           then matching_size d (i + k) ahi (j + k) bhi else 0)
  end.

Definition matches : nat :=
  matching_size (length a) 0 (length a) 0 (length b).

Definition _calculate_ratio (m len : nat) : Q :=
  if len =? 0 then 1%Q else (Z.of_nat (2 * m) # Pos.of_nat len).

Definition ratio : Q := _calculate_ratio matches (length a + length b).

(** [quick_ratio]: [avail] maps an element to the number of its
    occurrences in [b] less those already met in [a]. *)
Fixpoint quick_matches (s : str) (avail : char -> Z) : nat :=
  match s with
  | [] => 0
  | elt :: s' =>
      let numb := avail elt in
      let avail' := fun y => if (y =? elt)%N then (numb - 1)%Z else avail y in
      if (0 <? numb)%Z then S (quick_matches s' avail')
      else quick_matches s' avail'
  end.

Definition fullbcount (x : char) : Z := Z.of_nat (length (positions x b 0)).

Definition quick_ratio : Q :=
  _calculate_ratio (quick_matches a fullbcount) (length a + length b).

Definition real_quick_ratio : Q :=
  _calculate_ratio (Nat.min (length a) (length b)) (length a + length b).

End SequenceMatcher.

(** Candidates are ordered as the tuples [(score, x)]. *)
Definition scored : Type := (Q * str)%type.

Definition scored_compare (p q : scored) : comparison :=
  match Qcompare (fst p) (fst q) with
  | Eq => str_compare (snd p) (snd q)
  | c => c
  end.

Fixpoint insert_desc (p : scored) (l : list scored) : list scored :=
  match l with
  | [] => [p]
  | q :: l' =>
      match scored_compare p q with
      | Lt => q :: insert_desc p l'
      | _ => p :: l
      end
  end.

(** [sorted(l, reverse=True)] *)
Definition sort_desc (l : list scored) : list scored :=
  fold_right insert_desc [] l.

(** [heapq.nlargest(n, l)], which is [sorted(l, reverse=True)[:n]]. *)
Definition _nlargest (n : Z) (l : list scored) : list scored :=
  firstn (Z.to_nat n) (sort_desc l).

Definition good_enough (cutoff : Q) (word x : str) : bool :=
  Qle_bool cutoff (real_quick_ratio x word)
  && Qle_bool cutoff (quick_ratio x word)
  && Qle_bool cutoff (ratio x word).

Definition get_close_matches (word : str) (possibilities : list str)
  (n : Z) (cutoff : Q) : result (list str) :=
  if negb (0 <? n)%Z then Raise ValueError
  else if negb (Qle_bool 0 cutoff && Qle_bool cutoff 1) then Raise ValueError
  else
    let result :=
      flat_map (fun x => if good_enough cutoff word x
                         then [(ratio x word, x)] else []) possibilities in
    Ok (map snd (_nlargest n result)).

End difflib.

(* ================================================================== *)
(** * Resolver *)

(** The calls made to [difflib.get_close_matches], recorded next to the
    result so that a run that never starts fuzzy matching can be told from
    one that does. *)
Inductive difflib_call : Type :=
| CloseMatches (word : str) (possibilities : list str) (n : Z).

(** The loop over [maybes]; [seen] is the set of keys already taken. *)
Fixpoint collect (ALIAS : dict str) (n : Z) (maybes : list str)
  (seen out : list str) : result (list str) :=
  match maybes with
  | [] => Ok out
  | m :: rest =>
      let* canon := dict_item ALIAS m in
      let '(seen', out') :=
        if one_of canon seen then (seen, out)
        else (canon :: seen, out ++ [canon]) in
      if (n <=? Z.of_nat (length out'))%Z then Ok out'
      else collect ALIAS n rest seen' out'
  end.

Definition cutoff : Q := 45 # 100.

Definition search_foods_traced (ALIAS : dict str) (q : str) (n : Z)
  : result (list str) * list difflib_call :=
  let qn := _norm q in
  if is_empty qn then (Ok [], [])
  else if dict_mem qn ALIAS then
    (let* canon := dict_item ALIAS qn in Ok [canon], [])
  else
    let keys := dict_keys ALIAS in
    let limit := Z.max (n * 3) 60 in
    (let* maybes := difflib.get_close_matches qn keys limit cutoff in
     collect ALIAS n maybes [] [],
     [CloseMatches qn keys limit]).

(** [search_foods(q, n)] over the alias map [ALIAS]. *)
Definition search_foods (ALIAS : dict str) (q : str) (n : Z)
  : result (list str) :=
  fst (search_foods_traced ALIAS q n).

(* ================================================================== *)
(** * The confidence check of [cmd_food] *)

Definition confidence : Q := 75 # 100.

Fixpoint all_str (l : list json) : result (list str) :=
  match l with
  | [] => Ok []
  | v :: l' =>
      match v with
      | JStr s => let* r := all_str l' in Ok (s :: r)
      | _ => Raise TypeError
      end
  end.

(** [' '.join(v)] for a stored synonyms value. *)
Definition join_json (sep : str) (v : json) : result str :=
  let* parts := iter_json v in
  let* ss := all_str parts in
  Ok (join sep ss).

Fixpoint map_result {A B : Type} (f : A -> result B) (l : list A)
  : result (list B) :=
  match l with
  | [] => Ok []
  | x :: l' => let* y := f x in let* r := map_result f l' in Ok (y :: r)
  end.

(** What [cmd_food] decides to send back: the usage line, the "no results"
    line, the "did you mean" keyboard, or the card of a key.  The text of
    the card is rendered by [format_food_answer] and sent with the image,
    which this model leaves out. *)
Inductive reply : Type :=
| ReplyUsage
| ReplyNoResults
| ReplyDidYouMean (buttons : list (str * str))  (* caption, show:key *)
| ReplyCard (key : str) (img : json).

Section Presentation.

(** [str.title], used for button captions only. *)
Variable title : str -> str.

Variable FOODS : dict item.
Variable ALIAS : dict str.

Definition display_name (lang : str) (it : item) : str :=
  if str_eqb lang u{"uk"} then name_uk it else name_en it.

(** The text the query is compared with:
    [f"{name_uk} {name_en} {' '.join(synonyms_uk)} {' '.join(synonyms_en)}"] *)
Definition ref_text (it : item) : result str :=
  let* su := join_json u{" "} (synonyms_uk it) in
  let* se := join_json u{" "} (synonyms_en it) in
  Ok (name_uk it ++ u{" "} ++ name_en it ++ u{" "} ++ su ++ u{" "} ++ se).

Definition cmd_food (lang : str) (args : list str) : result reply :=
  if is_empty args then Ok ReplyUsage
  else
    let query := join u{" "} args in
    let* found := search_foods ALIAS query 7 in
    match found with
    | [] =>
        let* all_names :=
          map_result (fun k => let* it := dict_item FOODS k in
                               Ok (display_name lang it)) (dict_keys FOODS) in
        Ok ReplyNoResults
    | key :: _ =>
        let* it := dict_item FOODS key in
        let* ref := ref_text it in
        if negb (Qle_bool confidence
                   (difflib.ratio (_norm query) (_norm ref)))
        then
          let* kb :=
            map_result (fun k => let* r := dict_item FOODS k in
                                 Ok (title (display_name lang r), k)) found in
          Ok (ReplyDidYouMean kb)
        else
          Ok (ReplyCard key (py_or (image it) JNull))
    end.

End Presentation.

(* ================================================================== *)
(** * Pager *)

(** [items[start:stop]] with Python's treatment of indices that are
    negative or past the end. *)
Definition slice_index (len i : Z) : Z :=
  if (i <? 0)%Z then Z.max 0 (i + len) else Z.min i len.

Definition py_slice {A : Type} (l : list A) (start stop : Z) : list A :=
  let len := Z.of_nat (length l) in
  let lo := slice_index len start in
  let hi := slice_index len stop in
  firstn (Z.to_nat (hi - lo)) (skipn (Z.to_nat lo) l).

Inductive callback : Type :=
| CbShow (key : str)       (* f"show:{key}" *)
| CbPage (page : Z).       (* f"page:{page}" *)

Record button : Type := mk_button {
  text : str;
  callback_data : callback
}.

(** [InlineKeyboardMarkup(kb)]: the rows of buttons. *)
Definition _alphabet_pages (pairs : list (str * str)) (page per_page : Z)
  : list (list button) :=
  let start := (page * per_page)%Z in
  let chunk := py_slice pairs start (start + per_page) in
  let kb := map (fun p => [mk_button (snd p) (CbShow (fst p))]) chunk in
  let nav :=
    (if (0 <? page)%Z then [mk_button u{"«"} (CbPage (page - 1))] else [])
    ++ (if (start + per_page <? Z.of_nat (length pairs))%Z
        then [mk_button u{"»"} (CbPage (page + 1))] else []) in
  if is_empty nav then kb else kb ++ [nav].

(** What a page shows: the pairs behind its [show:] buttons, and whether
    it carries the buttons to the previous and to the next page. *)
Definition shown (b : button) : list (str * str) :=
  match callback_data b with
  | CbShow key => [(key, text b)]
  | CbPage _ => []
  end.

Definition page_items (kb : list (list button)) : list (str * str) :=
  flat_map (flat_map shown) kb.

Definition nav_button (caption : str) (b : button) : bool :=
  match callback_data b with
  | CbPage _ => str_eqb (text b) caption
  | CbShow _ => false
  end.

Definition has_prev (kb : list (list button)) : bool :=
  existsb (existsb (nav_button u{"«"})) kb.

Definition has_next (kb : list (list button)) : bool :=
  existsb (existsb (nav_button u{"»"})) kb.

(* ================================================================== *)
(** * The fuzzy fallback as the specification words it *)

(** First occurrences, in order. *)
Fixpoint dedup (seen : list str) (l : list str) : list str :=
  match l with
  | [] => []
  | x :: l' =>
      if one_of x seen then dedup seen l' else x :: dedup (x :: seen) l'
  end.

(** Similarity of the normalised query with one alias string. *)
Definition similarity (qn x : str) : Q := difflib.ratio x qn.

(** Alias strings at least [cutoff] similar to the query, best first. *)
Definition ranked (ALIAS : dict str) (qn : str) : list str :=
  map snd
    (difflib.sort_desc
       (map (fun x => (similarity qn x, x))
          (filter (fun x => Qle_bool cutoff (similarity qn x))
             (dict_keys ALIAS)))).

Definition canon_keys (ALIAS : dict str) (l : list str) : list str :=
  flat_map (fun x => match dict_get x ALIAS with
                     | Some c => [c]
                     | None => []
                     end) l.

(** Threshold, sort, deduplicate by canonical key, truncate to [limit]. *)
Definition fuzzy_spec (ALIAS : dict str) (qn : str) (limit : Z) : list str :=
  firstn (Z.to_nat limit) (dedup [] (canon_keys ALIAS (ranked ALIAS qn))).

(** What [search_foods] does on the same candidates: only the best
    [max(3*limit, 60)] of them are looked at, and at least one key is
    taken. *)
Definition fuzzy_code (ALIAS : dict str) (qn : str) (limit : Z) : list str :=
  firstn (Z.to_nat (Z.max limit 1))
    (dedup []
       (canon_keys ALIAS
          (firstn (Z.to_nat (Z.max (limit * 3) 60)) (ranked ALIAS qn)))).

(* ================================================================== *)
(** * Sample data *)

(** The one-record corpus of the specification's example scenario. *)
Definition spinach_record : json :=
  JObj [(u{"name_en"}, JStr u{"Spinach"});
        (u{"name_uk"}, JStr u{"Шпинат"});
        (u{"effect"}, JStr u{"increase"});
        (u{"synonyms_uk"}, JArr [JStr u{"шпінат"}])].

Definition spinach_corpus : dict json := [(u{"spinach"}, spinach_record)].

Definition spinach_fs : filesystem :=
  fun p => match p with
           | FOODS_PATH => Holds (JObj spinach_corpus)
           | _ => Missing
           end.

Definition spinach_alias : dict str :=
  [(u{"spinach"}, u{"spinach"});
   (u{"шпинат"}, u{"spinach"});
   (u{"шпінат"}, u{"spinach"})].

(** A corpus in which one food has sixty synonyms, [spinach] followed by
    one of sixty characters, and a second food is called [spice]. *)
Definition sixty_suffixes : list char :=
  map N.of_nat (seq 48 10 ++ seq 97 26 ++ seq 1072 24).

Definition crowded_corpus : dict json :=
  [(u{"spinach"},
    JObj [(u{"synonyms_en"},
           JArr (map (fun c => JStr (u{"spinach"} ++ [c])) sixty_suffixes))]);
   (u{"spice"}, JObj [])].

Definition crowded_alias : dict str :=
  (u{"spinach"}, u{"spinach"})
    :: map (fun c => (u{"spinach"} ++ [c], u{"spinach"})) sixty_suffixes
    ++ [(u{"spice"}, u{"spice"})].

Definition spinach_indexes : indexes :=
  Eval vm_compute in
    match build_indexes spinach_corpus with
    | Ok st => st
    | Raise _ => ([], [])
    end.


(** No base corpus, and an override corpus holding the spinach record. *)
Definition override_only_fs : filesystem :=
  fun p => match p with
           | USER_FOODS_PATH => Holds (JObj spinach_corpus)
           | _ => Missing
           end.

Definition empty_fs : filesystem := fun _ => Missing.

Definition corrupt_fs : filesystem :=
  fun p => match p with
           | FOODS_PATH => Corrupt
           | USER_FOODS_PATH => Missing
           | USERS_PATH => Unreadable
           end.

(** A base record with an advice field, and an override of it without. *)
Definition kale_base : dict json :=
  [(u{"kale"}, JObj [(u{"effect"}, JStr u{"decrease"});
                     (u{"advice_en"}, JStr u{"steady portions"})]);
   (u{"mango"}, JObj [(u{"effect"}, JStr u{"increase"})])].

Definition kale_override : dict json :=
  [(u{"kale"}, JObj [(u{"effect"}, JStr u{"neutral"})])].

Definition kale_fs : filesystem :=
  fun p => match p with
           | FOODS_PATH => Holds (JObj kale_base)
           | USER_FOODS_PATH => Holds (JObj kale_override)
           | USERS_PATH => Missing
           end.

Definition three_fruits : list (str * str) :=
  [(u{"k1"}, u{"Apple"}); (u{"k2"}, u{"Banana"}); (u{"k3"}, u{"Cherry"})].

(* ================================================================== *)
(** * Notions used to state the properties *)

(** An association list stands for a Python dictionary when no key occurs
    twice. *)
Definition is_dict {V : Type} (d : dict V) : Prop := NoDup (dict_keys d).

(** The characters the normaliser lets through, in either case: Latin
    letters (with U+0130 and U+212A, whose lowercase forms are [i] with a
    combining dot and [k]), the Cyrillic letters of the class, digits,
    whitespace, hyphen and the two apostrophes. *)
Definition allowed (c : char) : bool :=
  (in_range 65 90 c || in_range 97 122 c
   || (c =? 304) || (c =? 8490)
   || in_range 1040 1103 c
   || (c =? 1028) || (c =? 1030) || (c =? 1031) || (c =? 1168)
   || (c =? 1108) || (c =? 1110) || (c =? 1111) || (c =? 1169)
   || in_range 48 57 c
   || isspace c
   || (c =? 45) || (c =? 700) || (c =? 39))%N.

(** A file from which nothing can be loaded. *)
Definition degraded (f : file) : Prop :=
  f = Missing \/ f = Unreadable \/ f = Corrupt.

(** "Loading returns an empty mapping after logging a warning". *)
Definition empty_and_logged (fs : filesystem) (p : path) : Prop :=
  fst (_load_json_dict fs p) = JObj [] /\ snd (_load_json_dict fs p) <> [].

(** The record [(key, it)] registers the alias string [t]: [t] is the
    normal form of one of its names or synonyms. *)
Definition registers (key : str) (it : json) (t : str) : Prop :=
  exists i ss s,
    make_item key it = Ok i /\ alias_sources i = Ok ss /\ In s ss
    /\ _norm_json s = Ok t.

(** Every alias is a non-empty string bound to a key of the foods map. *)
Definition alias_sound (st : indexes) : Prop :=
  forall k c, In (k, c) (snd st) -> dict_mem c (fst st) = true /\ k <> [].

(** Notions about [difflib]'s matching blocks of two strings [a] and [b].
    A run of [k] equal elements that ends at [a[i]] and [b[j]], inside the
    ranges that start at [alo] and [blo]. *)
Definition run_ends (a b : str) (alo blo bhi i j k : nat) : Prop :=
  alo + k <= i + 1 /\ blo + k <= j + 1 /\ j < bhi
  /\ forall t, t < k -> nth (i - t) a 0%N = nth (j - t) b 0%N.

(** A block of equal elements inside the ranges [alo, ahi) and [blo, bhi). *)
Definition block_ok (a b : str) (alo ahi blo bhi : nat) (m : difflib.block)
  : Prop :=
  let '(i, j, k) := m in
  alo <= i /\ i + k <= ahi /\ blo <= j /\ j + k <= bhi
  /\ forall t, t < k -> nth (i + t) a 0%N = nth (j + t) b 0%N.

(** Every entry of a [j2len] table of row [i] is the length of a run. *)
Definition row_ok (a b : str) (alo blo bhi i : nat)
  (j2len : list (nat * nat)) : Prop :=
  forall j, 0 < difflib.j2len_get j2len j ->
            run_ends a b alo blo bhi i j (difflib.j2len_get j2len j).

(** The elements of [s] from index [lo] up to [hi]. *)
Definition segment (s : str) (lo hi : nat) : str :=
  firstn (hi - lo) (skipn lo s).

(** Occurrences of an element in [s], as [fullbcount] counts them. *)
Definition occurrences (s : str) (x : char) : Z :=
  Z.of_nat (length (difflib.positions x s 0)).

(** A candidate scores at least as much as another. *)
Definition score_ge (p q : difflib.scored) : Prop := (fst q <= fst p)%Q.

(** A field that holds a string, or nothing that counts. *)
Definition str_or_falsy (v : json) : Prop :=
  truthy v = false \/ exists s, v = JStr s.

(** A field that holds a list of such values, or nothing that counts. *)
Definition strs_or_falsy (v : json) : Prop :=
  truthy v = false \/ exists l, v = JArr l /\ Forall str_or_falsy l.

(** A corpus record whose name, effect and synonym fields have the types
    the indexer expects. *)
Definition well_formed_record (it : json) : Prop :=
  exists d,
    it = JObj d
    /\ Forall (fun k => str_or_falsy (get d k))
         [u{"name_en"}; u{"en"}; u{"name"}; u{"name_uk"}; u{"uk"};
          u{"назва"}; u{"effect"}]
    /\ Forall (fun k => strs_or_falsy (get d k))
         [u{"synonyms_en"}; u{"synonyms_uk"}].


(* ================================================================== *)
(** * Language preferences *)







(* ================================================================== *)
(** * Listings *)

(** [sorted(l, key=...)]: a stable sort, here by insertion, for the order
    given by [cmp] on the keys. *)
Fixpoint insert_by {A : Type} (cmp : A -> A -> comparison) (x : A)
  (l : list A) : list A :=
  match l with
  | [] => [x]
  | y :: l' =>
      match cmp x y with
      | Gt => y :: insert_by cmp x l'
      | _ => x :: l
      end
  end.

Definition sorted_by {A : Type} (cmp : A -> A -> comparison) (l : list A)
  : list A :=
  fold_right (insert_by cmp) [] l.

(** The name shown in a listing: [it["name_en"] if lang=="en" else
    it["name_uk"]]. *)
Definition list_name (lang : str) (it : item) : str :=
  if str_eqb lang u{"en"} then name_en it else name_uk it.

(** The test [effect and (it.get("effect") or "").lower() != effect] that
    leaves a food out of a listing. *)
Definition filtered_out (effect_filter : option str) (it : item) : bool :=
  match effect_filter with
  | Some e => negb (is_empty e) && negb (str_eqb (lower (effect it)) e)
  | None => false
  end.

Definition by_lower_name (p q : str * str) : comparison :=
  str_compare (lower (snd p)) (lower (snd q)).

(** [_names_sorted(lang, effect)] over the foods map. *)
Definition _names_sorted (FOODS : dict item) (lang : str)
  (effect_filter : option str) : list (str * str) :=
  let items :=
    flat_map (fun kv => if filtered_out effect_filter (snd kv) then []
                        else [(fst kv, list_name lang (snd kv))]) FOODS in
  sorted_by by_lower_name items.

(** What a listing command sends back. *)
Inductive list_reply : Type :=
| NoItems
| Listing (pairs : list (str * str)) (kb : list (list button)).

(** [cmd_list], [cmd_list_increase] and [cmd_list_decrease] differ in the
    effect they pass on; the pairs are kept in [user_data]. *)
Definition cmd_list_with (FOODS : dict item) (lang : str)
  (effect_filter : option str) : list_reply :=
  let pairs := _names_sorted FOODS lang effect_filter in
  if is_empty pairs then NoItems
  else Listing pairs (_alphabet_pages pairs 0 20).

(** The pairs a listing reply carries. *)
Definition listed (r : list_reply) : list (str * str) :=
  match r with
  | NoItems => []
  | Listing pairs _ => pairs
  end.

Definition cmd_list (FOODS : dict item) (lang : str) : list_reply :=
  cmd_list_with FOODS lang None.

Definition cmd_list_increase (FOODS : dict item) (lang : str) : list_reply :=
  cmd_list_with FOODS lang (Some u{"increase"}).

Definition cmd_list_decrease (FOODS : dict item) (lang : str) : list_reply :=
  cmd_list_with FOODS lang (Some u{"decrease"}).




(** The keys for which [on_inline_query] builds results. *)
Definition on_inline_query (FOODS : dict item) (ALIAS : dict str)
  (query : str) : result (list str) :=
  let q := strip query in
  if is_empty q then Ok (firstn 10 (sorted_by str_compare (dict_keys FOODS)))
  else search_foods ALIAS q 25.

(* ================================================================== *)
(** * Menu and text dispatch *)

(** The rows of [main_kb(lang)]. *)
Definition main_kb (lang : str) : list (list str) :=
  if str_eqb lang u{"en"} then
    [[u{"🔎 Search"}; u{"📋 List"}];
     [u{"⬆️ Increase"}; u{"⬇️ Decrease"}];
     [u{"🇺🇦 / 🇬🇧"}]]
  else
    [[u{"🔎 Пошук"}; u{"📋 Список"}];
     [u{"⬆️ Підсилюють"}; u{"⬇️ Послаблюють"}];
     [u{"🇺🇦 / 🇬🇧"}]].

(** What [on_text] does with a message. *)
Inductive text_reply : Type :=
| TLangMenu                      (* the language keyboard *)
| TAnswer (r : reply)            (* the awaited query, then "Done" *)
| TAskQuery                      (* "Enter product name" *)
| TList (r : list_reply)
| TFound (r : reply)             (* free text that resolves *)
| TNoResults.

Section TextDispatch.
Variable title : str -> str.
Variables (FOODS : dict item) (ALIAS : dict str).

(** Free text that is no menu button: searched with [n=1], and handed to
    [cmd_food] when something is found. *)
Definition free_text (lang : str) (t : str) : result text_reply :=
  let* found := search_foods ALIAS t 1 in
  if is_empty found then Ok TNoResults
  else let* r := cmd_food title FOODS ALIAS lang [t] in Ok (TFound r).

(** [on_text]: the reply and the new value of [awaiting_query]. *)
Definition on_text (lang : str) (awaiting_query : bool) (text : str)
  : result (text_reply * bool) :=
  let t := strip text in
  if str_eqb t u{"🇺🇦 / 🇬🇧"} then Ok (TLangMenu, awaiting_query)
  else if awaiting_query then
    let* r := cmd_food title FOODS ALIAS lang [t] in Ok (TAnswer r, false)
  else if str_eqb lang u{"en"} then
    if str_eqb t u{"🔎 Search"} then Ok (TAskQuery, true)
    else if str_eqb t u{"📋 List"} then Ok (TList (cmd_list FOODS lang), false)
    else if str_eqb t u{"⬆️ Increase"} then
      Ok (TList (cmd_list_increase FOODS lang), false)
    else if str_eqb t u{"⬇️ Decrease"} then
      Ok (TList (cmd_list_decrease FOODS lang), false)
    else let* r := free_text lang t in Ok (r, false)
  else
    if str_eqb t u{"🔎 Пошук"} then Ok (TAskQuery, true)
    else if str_eqb t u{"📋 Список"} then Ok (TList (cmd_list FOODS lang), false)
    else if str_eqb t u{"⬆️ Підсилюють"} then
      Ok (TList (cmd_list_increase FOODS lang), false)
    else if str_eqb t u{"⬇️ Послаблюють"} then
      Ok (TList (cmd_list_decrease FOODS lang), false)
    else let* r := free_text lang t in Ok (r, false).

End TextDispatch.

(* ================================================================== *)
(** * Notions about the indexes and the listings *)

(** The three values the indexer lets through as an effect. *)
Definition effects : list str :=
  [u{"increase"}; u{"decrease"}; u{"neutral"}].

(** [it] is what the indexer makes of some record of the corpus. *)
Definition from_corpus (raw : dict json) (it : item) : Prop :=
  exists key rec, In (key, rec) raw /\ make_item key rec = Ok it.

(** [l1] is an initial part of [l2]. *)
Definition prefix {A : Type} (l1 l2 : list A) : Prop :=
  exists t, l2 = l1 ++ t.




(* ================================================================== *)
(** * More sample data *)

(** Two records with the same English name up to case, then a third
    food. *)
Definition twin_first : json :=
  JObj [(u{"name_en"}, JStr u{"Kale"}); (u{"effect"}, JStr u{"decrease"})].

Definition twin_second : json :=
  JObj [(u{"name_en"}, JStr u{"KALE"}); (u{"effect"}, JStr u{"increase"})].

Definition twin_third : json := JObj [(u{"name_uk"}, JStr u{"Манго"})].

Definition twin_corpus : dict json :=
  [(u{"kale"}, twin_first);
   (u{"kale2"}, twin_second);
   (u{"mango"}, twin_third)].

Definition twin_indexes : indexes :=
  Eval vm_compute in
    match build_indexes twin_corpus with
    | Ok st => st
    | Raise _ => ([], [])
    end.




(** A corpus file with a record that is a number. *)
Definition bad_record_fs : filesystem :=
  fun p => match p with
           | FOODS_PATH => Holds (JObj [(u{"kale"}, JNum 7)])
           | _ => Missing
           end.


(* ================================================================== *)
(** * Strings and dictionaries *)

Lemma str_eqb_eq (a b : str) : str_eqb a b = true <-> a = b.
Proof.
  revert b; induction a as [|x a IH]; intros [|y b]; simpl; split;
    try congruence; try discriminate.
  - intros H. apply andb_prop in H. destruct H as [H1 H2].
    apply N.eqb_eq in H1. apply IH in H2. now subst.
  - intros H. injection H as -> ->. rewrite N.eqb_refl. simpl.
    now apply IH.
Qed.

Lemma str_eqb_refl (a : str) : str_eqb a a = true.
Proof. now apply str_eqb_eq. Qed.

Lemma str_eqb_neq (a b : str) : str_eqb a b = false <-> a <> b.
Proof.
  split.
  - intros H E. apply str_eqb_eq in E. congruence.
  - intros H. destruct (str_eqb a b) eqn:E; [|reflexivity].
    apply str_eqb_eq in E. contradiction.
Qed.

Lemma str_eq_dec (a b : str) : {a = b} + {a <> b}.
Proof.
  destruct (str_eqb a b) eqn:E.
  - left. now apply str_eqb_eq.
  - right. now apply str_eqb_neq.
Qed.

Lemma one_of_In (s : str) (l : list str) : one_of s l = true <-> In s l.
Proof.
  unfold one_of. rewrite existsb_exists. split.
  - intros [x [Hx E]]. apply str_eqb_eq in E. now subst.
  - intros H. exists s. split; [assumption | apply str_eqb_refl].
Qed.

Section Dictionaries.
Context {V : Type}.
Implicit Types (d : dict V) (k : str) (v : V).

Lemma dict_get_set_same k v d : dict_get k (dict_set k v d) = Some v.
Proof.
  induction d as [|[k' v'] d IH]; simpl.
  - now rewrite str_eqb_refl.
  - destruct (str_eqb k' k) eqn:E; simpl; rewrite E; [reflexivity | exact IH].
Qed.

Lemma dict_get_set_other k k' v d :
  k' <> k -> dict_get k' (dict_set k v d) = dict_get k' d.
Proof.
  intros Hne. induction d as [|[k0 v0] d IH]; simpl.
  - assert (E : str_eqb k k' = false) by (apply str_eqb_neq; congruence).
    now rewrite E.
  - destruct (str_eqb k0 k) eqn:E; simpl.
    + apply str_eqb_eq in E. subst k0.
      assert (E : str_eqb k k' = false) by (apply str_eqb_neq; congruence).
      now rewrite E.
    + destruct (str_eqb k0 k'); [reflexivity | exact IH].
Qed.

Lemma dict_get_In k v d : dict_get k d = Some v -> In (k, v) d.
Proof.
  induction d as [|[k' v'] d IH]; simpl; [discriminate|].
  destruct (str_eqb k' k) eqn:E.
  - apply str_eqb_eq in E. intros [= ->]. left. now subst.
  - intros H. right. now apply IH.
Qed.

Lemma dict_get_None k d : ~ In k (dict_keys d) -> dict_get k d = None.
Proof.
  induction d as [|[k' v'] d IH]; simpl; [reflexivity|].
  intros H. destruct (str_eqb k' k) eqn:E.
  - apply str_eqb_eq in E. tauto.
  - apply IH. tauto.
Qed.

Lemma dict_get_keys k v d : dict_get k d = Some v -> In k (dict_keys d).
Proof.
  intros H. apply dict_get_In in H. unfold dict_keys.
  change k with (fst (k, v)). now apply in_map.
Qed.

Lemma dict_keys_get k d : In k (dict_keys d) -> exists v, dict_get k d = Some v.
Proof.
  induction d as [|[k' v'] d IH]; simpl; [tauto|].
  intros H. destruct (str_eqb k' k) eqn:E.
  - now exists v'.
  - apply IH. destruct H as [H|H]; [|assumption].
    apply str_eqb_neq in E. contradiction.
Qed.

Lemma dict_mem_true k d : dict_mem k d = true <-> exists v, dict_get k d = Some v.
Proof.
  unfold dict_mem. destruct (dict_get k d) as [v|]; split.
  - now exists v.
  - reflexivity.
  - discriminate.
  - intros [v H]. discriminate.
Qed.

Lemma dict_mem_set_same k v d : dict_mem k (dict_set k v d) = true.
Proof. unfold dict_mem. now rewrite dict_get_set_same. Qed.

Lemma dict_mem_set_mono k k' v d :
  dict_mem k' d = true -> dict_mem k' (dict_set k v d) = true.
Proof.
  intros H. destruct (str_eq_dec k' k) as [->|Hne].
  - apply dict_mem_set_same.
  - unfold dict_mem in *. now rewrite dict_get_set_other.
Qed.

Lemma dict_set_In k v k' v' d :
  In (k', v') (dict_set k v d) -> (k', v') = (k, v) \/ In (k', v') d.
Proof.
  induction d as [|[k0 v0] d IH]; simpl.
  - intros [H|[]]. left. now symmetry.
  - destruct (str_eqb k0 k) eqn:E; simpl.
    + apply str_eqb_eq in E. subst k0. intros [H|H]; [left; now symmetry | tauto].
    + intros [H|H]; [tauto|]. apply IH in H. tauto.
Qed.

Lemma dict_item_Ok k v d : dict_item d k = Ok v <-> dict_get k d = Some v.
Proof.
  unfold dict_item. destruct (dict_get k d); split; congruence.
Qed.

(** [{**base, **user}] binds a key of [user] to its value in [user], and
    any other key as [base] does. *)
Lemma dict_update_get (base user : dict V) k :
  is_dict user ->
  dict_get k (dict_update base user) =
  match dict_get k user with
  | Some r => Some r
  | None => dict_get k base
  end.
Proof.
  unfold is_dict, dict_update. revert base.
  induction user as [|[k1 v1] u IH]; intros base Hnd; simpl; [reflexivity|].
  inversion Hnd as [|? ? Hnotin Hnd']; subst.
  rewrite IH by assumption.
  destruct (str_eqb k1 k) eqn:E.
  - apply str_eqb_eq in E. subst k1.
    rewrite (dict_get_None k u Hnotin). apply dict_get_set_same.
  - destruct (dict_get k u); [reflexivity|].
    apply dict_get_set_other. apply str_eqb_neq in E. congruence.
Qed.

End Dictionaries.


(* ================================================================== *)
(** * Corpus loader *)

Lemma load_foods_merged_objects (fs : filesystem) (base user : dict json) :
  fs FOODS_PATH = Holds (JObj base) ->
  fs USER_FOODS_PATH = Holds (JObj user) ->
  load_foods_merged fs =
  (Ok (dict_update base user),
   if is_empty (dict_update base user) then [LogWarningEmptyCorpus] else []).
Proof.
  intros Hb Hu. unfold load_foods_merged, _load_json_dict, path_exists.
  rewrite Hb, Hu. reflexivity.
Qed.

(** C6.  When both files hold a corpus, the loader returns [{**base,
    **user}]: a key of the override is bound to the override's record as a
    whole, so a field that only the base record has is absent from the
    merged record, and a key the override lacks keeps its base record. *)
Theorem override_replaces_whole_record
  (fs : filesystem) (base user : dict json) :
  fs FOODS_PATH = Holds (JObj base) ->
  fs USER_FOODS_PATH = Holds (JObj user) ->
  is_dict user ->
  exists merged lg,
    load_foods_merged fs = (Ok merged, lg) /\
    (forall k r, dict_get k user = Some r -> dict_get k merged = Some r) /\
    (forall k rb ro f,
        dict_get k base = Some (JObj rb) ->
        dict_get k user = Some (JObj ro) ->
        dict_mem f rb = true -> dict_mem f ro = false ->
        exists rm, dict_get k merged = Some (JObj rm) /\ dict_mem f rm = false) /\
    (forall k, dict_get k user = None -> dict_get k merged = dict_get k base).
Proof.
  intros Hb Hu Hd. eexists. eexists. split.
  - apply load_foods_merged_objects; eassumption.
  - split; [|split].
    + intros k r Hk. rewrite dict_update_get by assumption. now rewrite Hk.
    + intros k rb ro f _ Hk _ Hf. exists ro. split; [|assumption].
      rewrite dict_update_get by assumption. now rewrite Hk.
    + intros k Hk. rewrite dict_update_get by assumption. now rewrite Hk.
Qed.

(** A file that holds JSON which is not an object is returned as it is,
    and the merge then raises. *)
Lemma load_foods_merged_not_a_mapping (fs : filesystem) (v : json) :
  fs FOODS_PATH = Holds v -> (forall d, v <> JObj d) ->
  exists lg, load_foods_merged fs = (Raise TypeError, lg).
Proof.
  intros Hb Hv. unfold load_foods_merged, _load_json_dict at 1.
  unfold path_exists at 1. rewrite Hb. simpl.
  destruct (if path_exists fs USER_FOODS_PATH
            then _load_json_dict fs USER_FOODS_PATH
            else (JObj [], [])) as [user l2].
  destruct v; try (eexists; simpl; destruct (as_mapping user); reflexivity).
  exfalso. now apply (Hv d).
Qed.

Lemma kale_override_is_dict : is_dict kale_override.
Proof.
  unfold is_dict. vm_compute. constructor; [intros [] | constructor].
Defined.

Lemma override_replaces_whole_record_witness :
  exists merged lg,
    load_foods_merged kale_fs = (Ok merged, lg) /\
    (forall k r, dict_get k kale_override = Some r -> dict_get k merged = Some r) /\
    (forall k rb ro f,
        dict_get k kale_base = Some (JObj rb) ->
        dict_get k kale_override = Some (JObj ro) ->
        dict_mem f rb = true -> dict_mem f ro = false ->
        exists rm, dict_get k merged = Some (JObj rm) /\ dict_mem f rm = false) /\
    (forall k, dict_get k kale_override = None ->
               dict_get k merged = dict_get k kale_base).
Proof.
  apply (override_replaces_whole_record kale_fs kale_base kale_override).
  - reflexivity.
  - reflexivity.
  - exact kale_override_is_dict.
Defined.

Lemma load_json_dict_missing (fs : filesystem) (p : path) :
  fs p = Missing -> _load_json_dict fs p = (JObj [], []).
Proof. intros H. unfold _load_json_dict, path_exists. now rewrite H. Qed.

Lemma load_json_dict_raises (fs : filesystem) (p : path) :
  fs p = Unreadable \/ fs p = Corrupt ->
  _load_json_dict fs p = (JObj [], [LogException p]).
Proof.
  intros [H|H]; unfold _load_json_dict, path_exists; now rewrite H.
Qed.

Lemma load_json_dict_degraded (fs : filesystem) (p : path) :
  degraded (fs p) -> exists lg, _load_json_dict fs p = (JObj [], lg).
Proof.
  intros [H|H].
  - exists []. now apply load_json_dict_missing.
  - exists [LogException p]. now apply load_json_dict_raises.
Qed.

Lemma load_json_dict_no_warning (fs : filesystem) (p : path) :
  ~ In LogWarningEmptyCorpus (snd (_load_json_dict fs p)).
Proof.
  unfold _load_json_dict, path_exists.
  destruct (fs p); simpl; intuition discriminate.
Qed.

Lemma load_foods_merged_degraded (fs : filesystem) :
  degraded (fs FOODS_PATH) -> degraded (fs USER_FOODS_PATH) ->
  load_foods_merged fs =
  (Ok [], snd (_load_json_dict fs FOODS_PATH)
          ++ snd (_load_json_dict fs USER_FOODS_PATH)
          ++ [LogWarningEmptyCorpus]).
Proof.
  intros [H|[H|H]] [H'|[H'|H']];
    unfold load_foods_merged, _load_json_dict, path_exists;
    rewrite H, H'; reflexivity.
Qed.

(** C8, as the code has it.  A missing file loads as the empty mapping
    and nothing is logged; a file that cannot be read or decoded loads as
    the empty mapping after the exception is logged; nothing is raised in
    either case.  With both corpus files in such a state the merged corpus
    is empty, a warning is logged for it, and the indexes are built, empty.
    The preference store loads as the empty mapping too.  Whenever the
    merged corpus is empty the warning is logged and the corpus is
    returned. *)
Theorem load_failure_gives_empty_mapping (fs : filesystem) :
  (forall p, fs p = Missing -> _load_json_dict fs p = (JObj [], [])) /\
  (forall p, fs p = Unreadable \/ fs p = Corrupt ->
             _load_json_dict fs p = (JObj [], [LogException p])) /\
  (degraded (fs FOODS_PATH) -> degraded (fs USER_FOODS_PATH) ->
   exists lg, load_foods_merged fs = (Ok [], lg) /\
              In LogWarningEmptyCorpus lg /\
              rebuild_indexes fs = (Ok ([], []), lg)) /\
  (degraded (fs USERS_PATH) ->
   exists lg, snd (load_users fs) = (JObj [], lg)) /\
  (forall r lg, load_foods_merged fs = (r, lg) ->
                r = Ok [] <-> In LogWarningEmptyCorpus lg).
Proof.
  split; [|split; [|split; [|split]]].
  - intros p. apply load_json_dict_missing.
  - intros p. apply load_json_dict_raises.
  - intros Hb Hu.
    exists (snd (_load_json_dict fs FOODS_PATH)
            ++ snd (_load_json_dict fs USER_FOODS_PATH)
            ++ [LogWarningEmptyCorpus]).
    pose proof (load_foods_merged_degraded fs Hb Hu) as E.
    split; [exact E|]. split.
    + rewrite !in_app_iff. right. right. now left.
    + unfold rebuild_indexes. now rewrite E.
  - intros Hu. unfold load_users, _ensure_user_files, _save_json_dict. simpl.
    destruct (path_exists fs USERS_PATH) eqn:Ex; simpl.
    + apply load_json_dict_degraded. assumption.
    + exists []. unfold _load_json_dict, path_exists, write_file. reflexivity.
  - intros r lg. unfold load_foods_merged.
    destruct (_load_json_dict fs FOODS_PATH) as [base l1] eqn:E1.
    assert (L1 : ~ In LogWarningEmptyCorpus l1).
    { pose proof (load_json_dict_no_warning fs FOODS_PATH) as H.
      now rewrite E1 in H. }
    destruct (if path_exists fs USER_FOODS_PATH
              then _load_json_dict fs USER_FOODS_PATH
              else (JObj [], [])) as [user l2] eqn:E2.
    assert (L2 : ~ In LogWarningEmptyCorpus l2).
    { destruct (path_exists fs USER_FOODS_PATH);
        [|injection E2 as <- <-; tauto].
      pose proof (load_json_dict_no_warning fs USER_FOODS_PATH) as H.
      now rewrite E2 in H. }
    assert (L12 : ~ In LogWarningEmptyCorpus (l1 ++ l2)).
    { rewrite in_app_iff. tauto. }
    destruct (as_mapping base) as [b|e]; destruct (as_mapping user) as [u0|e'];
      intros [= <- <-]; try (split; [discriminate | intros H; contradiction]).
    destruct (dict_update b u0) as [|x m] eqn:Em; simpl.
    + split; [intros _|reflexivity].
      rewrite !in_app_iff. right. right. now left.
    + split; [discriminate|]. rewrite app_nil_r. intros H. contradiction.
Qed.

(** C8 fails as stated: the base corpus file is missing, the loader
    returns the empty mapping for it, and no record is logged. *)
Lemma missing_file_is_not_logged :
  degraded (empty_fs FOODS_PATH) /\
  ~ empty_and_logged empty_fs FOODS_PATH /\
  load_foods_merged override_only_fs = (Ok spinach_corpus, []) /\
  snd (load_users empty_fs) = (JObj [], []).
Proof.
  split; [now left|]. split; [|split; reflexivity].
  unfold empty_and_logged. simpl. intros [_ H]. now apply H.
Qed.

Lemma load_failure_gives_empty_mapping_witness :
  _load_json_dict corrupt_fs FOODS_PATH = (JObj [], [LogException FOODS_PATH]) /\
  _load_json_dict corrupt_fs USER_FOODS_PATH = (JObj [], []) /\
  (exists lg, load_foods_merged corrupt_fs = (Ok [], lg) /\
              In LogWarningEmptyCorpus lg /\
              rebuild_indexes corrupt_fs = (Ok ([], []), lg)) /\
  (exists lg, snd (load_users corrupt_fs) = (JObj [], lg)).
Proof.
  pose proof (load_failure_gives_empty_mapping corrupt_fs) as [H1 [H2 [H3 [H4 _]]]].
  split; [apply H2; now right|]. split; [now apply H1|]. split.
  - apply H3; [right; now right | now left].
  - apply H4. right. now left.
Defined.


(* ================================================================== *)
(** * Pager *)

Section Pager.
Open Scope Z_scope.

Lemma page_items_rows (chunk : list (str * str)) :
  page_items (map (fun p => [mk_button (snd p) (CbShow (fst p))]) chunk)
  = chunk.
Proof.
  unfold page_items.
  induction chunk as [|[k nm] chunk IH]; simpl; [reflexivity|].
  f_equal. exact IH.
Qed.

Lemma nav_button_rows (caption : str) (chunk : list (str * str)) :
  existsb (existsb (nav_button caption))
    (map (fun p => [mk_button (snd p) (CbShow (fst p))]) chunk) = false.
Proof.
  induction chunk as [|[k nm] chunk IH]; simpl; [reflexivity| exact IH].
Qed.

Lemma page_items_app (kb1 kb2 : list (list button)) :
  page_items (kb1 ++ kb2) = page_items kb1 ++ page_items kb2.
Proof. unfold page_items. apply flat_map_app. Qed.

Lemma firstn_min_length {A : Type} (n : nat) (l : list A) :
  firstn (Nat.min n (length l)) l = firstn n l.
Proof.
  destruct (Nat.le_ge_cases n (length l)) as [H|H].
  - now rewrite Nat.min_l.
  - rewrite Nat.min_r by assumption.
    rewrite firstn_all. symmetry. now apply firstn_all2.
Qed.

(** For a start that is not negative the slice is the usual one. *)
Lemma py_slice_nonneg {A : Type} (l : list A) (start : Z) (size : nat) :
  0 <= start ->
  py_slice l start (start + Z.of_nat size) =
  firstn size (skipn (Z.to_nat start) l).
Proof.
  intros Hs. unfold py_slice, slice_index.
  destruct (Z.ltb_spec start 0); [lia|].
  destruct (Z.ltb_spec (start + Z.of_nat size) 0); [lia|].
  destruct (Z_lt_ge_dec start (Z.of_nat (length l))) as [Hlt|Hge].
  - rewrite (Z.min_l start) by lia.
    rewrite <- (firstn_min_length size).
    f_equal. rewrite length_skipn. lia.
  - rewrite (Z.min_r start) by lia.
    rewrite !skipn_all2 by lia. now rewrite !firstn_nil.
Qed.

Lemma py_slice_past_end {A : Type} (l : list A) (start stop : Z) :
  Z.of_nat (length l) <= start -> py_slice l start stop = [].
Proof.
  intros H. unfold py_slice, slice_index.
  destruct (Z.ltb_spec start 0); [lia|].
  rewrite (Z.min_r start) by lia.
  rewrite skipn_all2 by lia. apply firstn_nil.
Qed.

Lemma alphabet_pages_items (pairs : list (str * str)) (page per_page : Z) :
  page_items (_alphabet_pages pairs page per_page) =
  py_slice pairs (page * per_page) (page * per_page + per_page).
Proof.
  unfold _alphabet_pages.
  destruct (0 <? page); destruct (_ <? Z.of_nat (length pairs)); simpl;
    rewrite ?page_items_app, page_items_rows; simpl;
    rewrite ?app_nil_r; reflexivity.
Qed.

Lemma alphabet_pages_prev (pairs : list (str * str)) (page per_page : Z) :
  has_prev (_alphabet_pages pairs page per_page) = (0 <? page).
Proof.
  unfold has_prev, _alphabet_pages.
  destruct (0 <? page); destruct (_ <? Z.of_nat (length pairs)); simpl;
    rewrite ?existsb_app, nav_button_rows; reflexivity.
Qed.

Lemma alphabet_pages_next (pairs : list (str * str)) (page per_page : Z) :
  has_next (_alphabet_pages pairs page per_page) =
  ((page + 1) * per_page <? Z.of_nat (length pairs)).
Proof.
  unfold has_next, _alphabet_pages.
  replace ((page + 1) * per_page) with (page * per_page + per_page) by lia.
  destruct (0 <? page); destruct (_ <? Z.of_nat (length pairs)); simpl;
    rewrite ?existsb_app, nav_button_rows; reflexivity.
Qed.

(** C7.  For every list of pairs, every integer page index and every page
    size, the page shows the slice [pairs[page*size : page*size+size]]
    (for a page index that is not negative, the [size] pairs that follow
    the first [page*size]), it links to the previous page exactly when
    [page > 0] and to the next page exactly when [(page+1)*size <
    len(pairs)]; a page index with [page*size >= len(pairs)] shows nothing
    and has no link to a next page.  The pager is a total function, so no
    page index raises. *)
Theorem alphabet_pages_paginates
  (pairs : list (str * str)) (page : Z) (size : nat) :
  let kb := _alphabet_pages pairs page (Z.of_nat size) in
  let len := Z.of_nat (length pairs) in
  page_items kb =
    py_slice pairs (page * Z.of_nat size) (page * Z.of_nat size + Z.of_nat size)
  /\ (0 <= page ->
      page_items kb = firstn size (skipn (Z.to_nat page * size) pairs))
  /\ (has_prev kb = true <-> 0 < page)
  /\ (has_next kb = true <-> (page + 1) * Z.of_nat size < len)
  /\ (len <= page * Z.of_nat size -> page_items kb = [] /\ has_next kb = false).
Proof.
  intros kb len. subst kb len.
  rewrite alphabet_pages_items, alphabet_pages_prev, alphabet_pages_next.
  split; [reflexivity|]. split; [|split; [|split]].
  - intros Hp. rewrite py_slice_nonneg by lia. do 2 f_equal. lia.
  - apply Z.ltb_lt.
  - apply Z.ltb_lt.
  - intros H. split.
    + now apply py_slice_past_end.
    + apply Z.ltb_ge. lia.
Qed.

Lemma alphabet_pages_paginates_witness :
  page_items (_alphabet_pages three_fruits 1 (Z.of_nat 2))
    = [(u{"k3"}, u{"Cherry"})]
  /\ has_prev (_alphabet_pages three_fruits 1 (Z.of_nat 2)) = true
  /\ page_items (_alphabet_pages three_fruits 2 (Z.of_nat 2)) = []
  /\ has_next (_alphabet_pages three_fruits 2 (Z.of_nat 2)) = false.
Proof.
  pose proof (alphabet_pages_paginates three_fruits 1 2) as [_ [H1 [H2 _]]].
  pose proof (alphabet_pages_paginates three_fruits 2 2) as [_ [_ [_ [_ H4]]]].
  split; [|split].
  - rewrite H1 by lia. reflexivity.
  - apply H2. lia.
  - apply H4. simpl. lia.
Defined.

End Pager.


(* ================================================================== *)
(** * Normaliser *)

Section Normaliser.
Open Scope N_scope.

Lemma in_range_true (lo hi c : N) : in_range lo hi c = true <-> lo <= c <= hi.
Proof.
  unfold in_range. rewrite andb_true_iff, !N.leb_le. tauto.
Qed.

Lemma isspace_spec (c : char) :
  isspace c = true <->
  9 <= c <= 13 \/ 28 <= c <= 32 \/ c = 133 \/ c = 160 \/ c = 5760
  \/ 8192 <= c <= 8202 \/ c = 8232 \/ c = 8233 \/ c = 8239 \/ c = 8287
  \/ c = 12288.
Proof.
  unfold isspace. rewrite !orb_true_iff, !in_range_true, !N.eqb_eq. tauto.
Qed.

Lemma norm_keeps_spec (c : char) :
  norm_keeps c = true <->
  97 <= c <= 122 \/ 1072 <= c <= 1103 \/ c = 1110 \/ c = 1111 \/ c = 1108
  \/ c = 1169 \/ 48 <= c <= 57 \/ isspace c = true \/ c = 45 \/ c = 700
  \/ c = 39.
Proof.
  unfold norm_keeps. rewrite !orb_true_iff, !in_range_true, !N.eqb_eq. tauto.
Qed.

Lemma allowed_spec (c : char) :
  allowed c = true <->
  65 <= c <= 90 \/ 97 <= c <= 122 \/ c = 304 \/ c = 8490
  \/ 1040 <= c <= 1103
  \/ c = 1028 \/ c = 1030 \/ c = 1031 \/ c = 1168
  \/ c = 1108 \/ c = 1110 \/ c = 1111 \/ c = 1169
  \/ 48 <= c <= 57 \/ isspace c = true \/ c = 45 \/ c = 700 \/ c = 39.
Proof.
  unfold allowed. rewrite !orb_true_iff, !in_range_true, !N.eqb_eq. tauto.
Qed.

(** Everything the class keeps is an allowed character. *)
Lemma norm_keeps_allowed (c : char) : norm_keeps c = true -> allowed c = true.
Proof.
  rewrite norm_keeps_spec, allowed_spec. intros H.
  destruct H as [H|[H|H]]; [tauto | right; right; right; right; left; lia|].
  tauto.
Qed.

Lemma isspace_false (c : char) :
  isspace c = false <->
  ~ (9 <= c <= 13 \/ 28 <= c <= 32 \/ c = 133 \/ c = 160 \/ c = 5760
     \/ 8192 <= c <= 8202 \/ c = 8232 \/ c = 8233 \/ c = 8239 \/ c = 8287
     \/ c = 12288).
Proof. rewrite <- isspace_spec. symmetry. apply not_true_iff_false. Qed.

Ltac tests_to_props :=
  repeat match goal with
    | H : _ && _ = true |- _ => apply andb_true_iff in H; destruct H
    | H : in_range _ _ _ = true |- _ => apply in_range_true in H
    | H : (_ =? _) = true |- _ => apply N.eqb_eq in H
    | H : negb _ = true |- _ => apply negb_true_iff in H
    | H : (_ =? _) = false |- _ => apply N.eqb_neq in H
    | H : in_range _ _ _ = false |- _ =>
        apply not_true_iff_false in H; rewrite in_range_true in H
    end.

(** The lowercase form of a character that is not allowed has no character
    that the class keeps. *)
Lemma lower_char_disallowed (c : char) :
  allowed c = false ->
  Forall (fun x => norm_keeps x = false) (lower_char c).
Proof.
  intros Ha. apply not_true_iff_false in Ha. rewrite allowed_spec in Ha.
  assert (Hs : isspace c <> true) by tauto.
  rewrite isspace_spec in Hs.
  unfold lower_char.
  repeat match goal with
         | |- Forall _ (if ?b then _ else _) => destruct b eqn:?
         end;
    tests_to_props;
    repeat constructor;
    apply not_true_iff_false; rewrite norm_keeps_spec, isspace_spec; lia.
Qed.

Lemma Forall_lstrip (P : char -> Prop) (s : str) :
  Forall P s -> Forall P (lstrip s).
Proof.
  induction 1 as [|c s Hc Hs IH]; simpl; [constructor|].
  destruct (isspace c); [exact IH | now constructor].
Qed.

Lemma Forall_strip (P : char -> Prop) (s : str) :
  Forall P s -> Forall P (strip s).
Proof.
  intros H. unfold strip, rstrip.
  apply Forall_rev, Forall_lstrip, Forall_rev, Forall_lstrip, H.
Qed.

Lemma filter_none {A : Type} (f : A -> bool) (l : list A) :
  Forall (fun x => f x = false) l -> filter f l = [].
Proof.
  induction 1 as [|x l Hx Hl IH]; simpl; [reflexivity|]. now rewrite Hx.
Qed.

Lemma norm_disallowed (s : str) :
  forallb (fun c => negb (allowed c)) s = true -> _norm s = [].
Proof.
  intros H. unfold _norm. apply filter_none, Forall_strip.
  unfold lower. apply Forall_flat_map.
  rewrite forallb_forall in H. apply Forall_forall. intros c Hc.
  apply lower_char_disallowed. apply H in Hc. now apply negb_true_iff.
Qed.

Lemma strip_single (x : char) : isspace x = false -> strip [x] = [x].
Proof.
  intros H. unfold strip, rstrip. simpl. rewrite H. simpl. now rewrite H.
Qed.

Lemma norm_single_kept (x : char) :
  norm_keeps x = true -> isspace x = false ->
  filter norm_keeps (strip [x]) <> [].
Proof.
  intros Hk Hs. rewrite strip_single by assumption. simpl. rewrite Hk.
  discriminate.
Qed.

(** Conversely, an allowed character that is not whitespace survives
    normalisation: the allowed set cannot be made smaller. *)
Lemma allowed_exact (c : char) :
  allowed c = true -> isspace c = false -> _norm [c] <> [].
Proof.
  intros Ha Hs. apply allowed_spec in Ha.
  pose proof Hs as Hs'. apply isspace_false in Hs'.
  rewrite Hs in Ha.
  assert (Hf : ~ false = true) by discriminate.
  unfold _norm, lower. simpl flat_map. rewrite app_nil_r.
  unfold lower_char.
  repeat match goal with
         | |- context [if ?b then _ else _] => destruct b eqn:?
         end;
    tests_to_props;
    try (apply norm_single_kept;
         [ apply norm_keeps_spec; lia
         | apply isspace_false; lia ]).
  all: try (subst c; vm_compute; discriminate).
  all: try (exfalso; lia).
  - assert (E : c = 1168 \/ c = 1169) by lia.
    destruct E; subst c; vm_compute in *; congruence.
  - destruct (N.eq_dec c 1168) as [->|Hne]; [vm_compute in *; congruence|].
    apply norm_single_kept; [apply norm_keeps_spec; lia | assumption].
Qed.

End Normaliser.

(** An empty normalised query is answered at once, whatever the limit. *)
Lemma search_foods_no_query (ALIAS : dict str) (q : str) (n : Z) :
  _norm q = [] -> search_foods_traced ALIAS q n = (Ok [], []).
Proof. intros H. unfold search_foods_traced. now rewrite H. Qed.

(** C4.  A string made only of characters outside the allowed set (Latin
    letters, the Cyrillic letters of the class, digits, whitespace, hyphen,
    the apostrophes) normalises to the empty string; and a query whose
    normal form is empty resolves to the empty list for any limit, before
    the alias map is consulted or any similarity is computed.  The allowed
    set is exactly what the normaliser lets through: each of its
    characters that is not whitespace normalises to a non-empty string. *)
Theorem disallowed_text_resolves_to_nothing :
  (forall s, forallb (fun c => negb (allowed c)) s = true -> _norm s = []) /\
  (forall ALIAS q n,
      _norm q = [] ->
      search_foods ALIAS q n = Ok [] /\
      search_foods_traced ALIAS q n = (Ok [], [])) /\
  (forall c, allowed c = true -> isspace c = false -> _norm [c] <> []).
Proof.
  split; [|split].
  - exact norm_disallowed.
  - intros ALIAS q n H. unfold search_foods.
    rewrite (search_foods_no_query ALIAS q n H). now split.
  - exact allowed_exact.
Qed.

Lemma disallowed_text_resolves_to_nothing_witness :
  _norm u{"€→∞+%(!?)©"} = [] /\
  search_foods spinach_alias u{"€→∞+%(!?)©"} 5 = Ok [].
Proof.
  destruct disallowed_text_resolves_to_nothing as [H1 [H2 _]].
  assert (E : _norm u{"€→∞+%(!?)©"} = []) by (apply H1; vm_compute; reflexivity).
  split; [exact E|]. now apply H2.
Defined.


(* ================================================================== *)
(** * Indexer *)

Lemma bind_Ok {A B : Type} (m : result A) (k : A -> result B) (b : B) :
  bind m k = Ok b -> exists a, m = Ok a /\ k a = Ok b.
Proof.
  destruct m as [a|e]; simpl; [|discriminate]. intros H. now exists a.
Qed.

Ltac bind_inv H :=
  let x := fresh "x" in
  let E := fresh "E" in
  apply bind_Ok in H; destruct H as [x [E H]].

Lemma is_empty_nil {A : Type} (l : list A) : is_empty l = true <-> l = [].
Proof. destruct l; simpl; split; congruence. Qed.

Section RegisterAliases.
Variable canon : str.

Lemma register_aliases_In (ss : list json) (alias alias' : dict str) :
  register_aliases canon ss alias = Ok alias' ->
  forall k c, In (k, c) alias' -> (c = canon /\ k <> []) \/ In (k, c) alias.
Proof.
  revert alias. induction ss as [|s ss IH]; intros alias H k c Hin; simpl in H.
  - injection H as <-. now right.
  - bind_inv H. destruct (IH _ H k c Hin) as [Hl|Hr]; [now left|].
    destruct (is_empty x) eqn:Ex; [now right|].
    apply dict_set_In in Hr. destruct Hr as [Hr|Hr]; [|now right].
    injection Hr as -> ->. left. split; [reflexivity|].
    intros ->. discriminate.
Qed.




End RegisterAliases.

Lemma index_record_inv (foods : dict item) (alias : dict str)
  (key : str) (it : json) (st' : indexes) :
  index_record (foods, alias) key it = Ok st' ->
  exists i ss alias',
    make_item key it = Ok i /\ alias_sources i = Ok ss
    /\ register_aliases (lower (name_en i)) ss alias = Ok alias'
    /\ st' = (dict_set (lower (name_en i)) i foods, alias').
Proof.
  unfold index_record. intros H.
  bind_inv H. bind_inv H. bind_inv H. injection H as <-.
  now exists x, x0, x1.
Qed.


Lemma index_record_sound (st st' : indexes) (key : str) (it : json) :
  alias_sound st -> index_record st key it = Ok st' -> alias_sound st'.
Proof.
  destruct st as [foods alias]. intros Hs H.
  apply index_record_inv in H.
  destruct H as [i [ss [alias' [_ [_ [Hr ->]]]]]].
  intros k c Hin. simpl in *.
  destruct (register_aliases_In _ _ _ _ Hr k c Hin) as [[-> Hk]|Hold].
  - split; [apply dict_mem_set_same | assumption].
  - destruct (Hs k c Hold) as [Hm Hk]. split; [|assumption].
    now apply dict_mem_set_mono.
Qed.

Lemma index_records_sound (raw : dict json) (st st' : indexes) :
  alias_sound st -> index_records raw st = Ok st' -> alias_sound st'.
Proof.
  revert st. induction raw as [|[key it] raw IH]; intros st Hs H; simpl in H.
  - now injection H as <-.
  - bind_inv H. apply (IH x); [|assumption].
    now apply (index_record_sound st x key it).
Qed.

Lemma build_indexes_sound (raw : dict json) (st : indexes) :
  build_indexes raw = Ok st -> alias_sound st.
Proof.
  apply index_records_sound. intros k c [].
Qed.

(** The indexes of the running program are those built from the merged
    corpus. *)
Lemma rebuild_indexes_inv (fs : filesystem) (st : indexes) (lg : log) :
  rebuild_indexes fs = (Ok st, lg) ->
  exists raw, load_foods_merged fs = (Ok raw, lg) /\ build_indexes raw = Ok st.
Proof.
  unfold rebuild_indexes. destruct (load_foods_merged fs) as [[raw|e] lg'];
    simpl; intros H; injection H as H <-; [|discriminate].
  now exists raw.
Qed.



(* ================================================================== *)
(** * Resolver: the exact path *)

Lemma search_foods_exact (ALIAS : dict str) (q : str) (n : Z) (c : str) :
  _norm q <> [] -> dict_get (_norm q) ALIAS = Some c ->
  search_foods_traced ALIAS q n = (Ok [c], []).
Proof.
  intros Hq Hc. unfold search_foods_traced, dict_mem, dict_item.
  destruct (_norm q) as [|x qn] eqn:E; [contradiction|]. simpl.
  now rewrite Hc.
Qed.

Lemma alias_key_nonempty (raw : dict json) (st : indexes) (k c : str) :
  build_indexes raw = Ok st -> dict_get k (snd st) = Some c -> k <> [].
Proof.
  intros Hb Hk. apply build_indexes_sound in Hb.
  apply dict_get_In in Hk. now apply (Hb k c).
Qed.

(** C2.  On the alias map built by the indexer, a query whose normal form
    is an alias resolves to exactly the one canonical key bound to it, for
    any limit, and [difflib] is not called. *)
Theorem exact_alias_short_circuits
  (raw : dict json) (FOODS : dict item) (ALIAS : dict str)
  (q : str) (n : Z) (c : str) :
  build_indexes raw = Ok (FOODS, ALIAS) ->
  dict_get (_norm q) ALIAS = Some c ->
  search_foods ALIAS q n = Ok [c] /\
  search_foods_traced ALIAS q n = (Ok [c], []).
Proof.
  intros Hb Hc.
  assert (E : search_foods_traced ALIAS q n = (Ok [c], [])).
  { apply search_foods_exact; [|assumption].
    apply (alias_key_nonempty raw (FOODS, ALIAS) _ c Hb Hc). }
  unfold search_foods. rewrite E. now split.
Qed.

Lemma spinach_indexes_built :
  build_indexes spinach_corpus = Ok (fst spinach_indexes, spinach_alias).
Proof. vm_compute. reflexivity. Qed.

Lemma exact_alias_short_circuits_witness :
  search_foods spinach_alias u{"шпінат"} 5 = Ok [u{"spinach"}] /\
  search_foods_traced spinach_alias u{"шпінат"} 5 = (Ok [u{"spinach"}], []).
Proof.
  apply (exact_alias_short_circuits spinach_corpus (fst spinach_indexes)).
  - vm_compute. reflexivity.
  - vm_compute. reflexivity.
Defined.




(* ================================================================== *)
(** * The indexer returns on well-formed corpora *)

Lemma as_str_or (a rest : json) :
  str_or_falsy a -> (exists s, as_str rest = Ok s) ->
  exists s, as_str (py_or a rest) = Ok s.
Proof.
  intros [Hf|[s ->]] Hr; unfold py_or.
  - now rewrite Hf.
  - destruct (truthy (JStr s)); [now exists s | assumption].
Qed.

Lemma norm_json_total (s : json) :
  str_or_falsy s -> exists t, _norm_json s = Ok t.
Proof.
  intros H. unfold _norm_json.
  destruct (as_str_or s (JStr []) H) as [t Ht]; [now exists []|].
  rewrite Ht. simpl. now eexists.
Qed.

Lemma register_aliases_total (canon : str) (ss : list json) (alias : dict str) :
  Forall str_or_falsy ss -> exists alias', register_aliases canon ss alias = Ok alias'.
Proof.
  intros H. revert alias. induction H as [|s ss Hs Hss IH]; intros alias; simpl.
  - now exists alias.
  - destruct (norm_json_total s Hs) as [t Ht]. rewrite Ht. simpl. apply IH.
Qed.

Lemma iter_synonyms (v : json) :
  strs_or_falsy v ->
  exists l, iter_json (py_or v (JArr [])) = Ok l /\ Forall str_or_falsy l.
Proof.
  intros [Hf|[l [-> Hl]]]; unfold py_or.
  - rewrite Hf. now exists [].
  - destruct (truthy (JArr l)); [now exists l | now exists []].
Qed.

Lemma make_item_total (key : str) (it : json) :
  well_formed_record it ->
  exists i,
    make_item key it = Ok i
    /\ exists ss, alias_sources i = Ok ss /\ Forall str_or_falsy ss.
Proof.
  intros [d [-> [Hs Hl]]].
  inversion Hs as [|? ? H1 Hs1]; subst. inversion Hs1 as [|? ? H2 Hs2]; subst.
  inversion Hs2 as [|? ? H3 Hs3]; subst. inversion Hs3 as [|? ? H4 Hs4]; subst.
  inversion Hs4 as [|? ? H5 Hs5]; subst. inversion Hs5 as [|? ? H6 Hs6]; subst.
  inversion Hs6 as [|? ? H7 _]; subst.
  inversion Hl as [|? ? L1 Hl1]; subst. inversion Hl1 as [|? ? L2 _]; subst.
  unfold make_item. simpl as_dict. cbn [bind].
  destruct (as_str_or _ _ H1 (as_str_or _ _ H2
              (as_str_or _ (JStr key) H3 (ex_intro _ key eq_refl)))) as [n_en E1].
  rewrite E1. cbn [bind].
  destruct (as_str_or _ _ H4 (as_str_or _ _ H5
              (as_str_or _ (JStr (strip n_en)) H6
                 (ex_intro _ (strip n_en) eq_refl)))) as [n_uk E2].
  rewrite E2. cbn [bind].
  destruct (as_str_or _ (JStr u{"neutral"}) H7 (ex_intro _ _ eq_refl))
    as [e E3].
  rewrite E3. cbn [bind].
  eexists. split; [reflexivity|].
  unfold alias_sources. cbn [synonyms_en synonyms_uk name_en name_uk].
  destruct (iter_synonyms _ L1) as [se [Ese Hse]].
  destruct (iter_synonyms _ L2) as [su [Esu Hsu]].
  rewrite Ese. cbn [bind]. rewrite Esu. cbn [bind].
  eexists. split; [reflexivity|].
  constructor; [right; now eexists|]. constructor; [right; now eexists|].
  apply Forall_app. now split.
Qed.

Lemma index_records_total (raw : dict json) (st : indexes) :
  Forall (fun kv => well_formed_record (snd kv)) raw ->
  exists st', index_records raw st = Ok st'.
Proof.
  intros H. revert st. induction H as [|[key it] raw Hit Hraw IH]; intros st; simpl.
  - now exists st.
  - destruct st as [foods alias]. unfold index_record.
    destruct (make_item_total key it Hit) as [i [Ei [ss [Ess Hss]]]].
    rewrite Ei. cbn [bind]. rewrite Ess. cbn [bind].
    destruct (register_aliases_total (lower (name_en i)) ss alias Hss) as [alias' Ea].
    rewrite Ea. cbn [bind]. apply IH.
Qed.

(** On a corpus of well-formed records the indexer returns its pair of
    indexes, whatever the keys and the other fields are. *)
Lemma build_indexes_total (raw : dict json) :
  Forall (fun kv => well_formed_record (snd kv)) raw ->
  exists st, build_indexes raw = Ok st.
Proof. apply index_records_total. Qed.


(* ================================================================== *)
(** * Facts about [difflib] *)

Module difflib_facts.
Import difflib.

Lemma positions_spec (x : char) (s : str) (j0 j : nat) :
  In j (positions x s j0) -> j0 <= j /\ nth_error s (j - j0) = Some x.
Proof.
  revert j0. induction s as [|y s IH]; intros j0 H; simpl in H; [contradiction|].
  assert (Hrec : In j (positions x s (S j0)) ->
                 j0 <= j /\ nth_error (y :: s) (j - j0) = Some x).
  { intros H'. apply IH in H'. destruct H' as [H1 H2]. split; [lia|].
    replace (j - j0) with (S (j - S j0)) by lia. exact H2. }
  destruct (N.eqb_spec y x) as [->|Hne]; [|now apply Hrec].
  destruct H as [<-|H]; [|now apply Hrec].
  split; [lia|]. now rewrite Nat.sub_diag.
Qed.

Section Blocks.
Variables a b : str.

#[local] Abbreviation A i := (nth i a 0%N).
#[local] Abbreviation B j := (nth j b 0%N).
#[local] Abbreviation run_ends := (run_ends a b).
#[local] Abbreviation block_ok := (block_ok a b).
#[local] Abbreviation row_ok := (row_ok a b).

Lemma b2j_spec (x : char) (j : nat) :
  In j (b2j b x) -> j < length b /\ B j = x.
Proof.
  unfold b2j. destruct (bpopular b x); [contradiction|].
  intros H. apply positions_spec in H. destruct H as [_ H].
  rewrite Nat.sub_0_r in H. split.
  - apply nth_error_Some. congruence.
  - now apply nth_error_nth.
Qed.

Lemma run_ends_block (alo ahi blo bhi i j k : nat) :
  i < ahi -> run_ends alo blo bhi i j k ->
  block_ok alo ahi blo bhi (i + 1 - k, j + 1 - k, k).
Proof.
  intros Hi [H1 [H2 [H3 H4]]]. unfold block_ok.
  repeat split; try lia.
  intros t Ht. specialize (H4 (k - 1 - t)).
  replace (i - (k - 1 - t)) with (i + 1 - k + t) in H4 by lia.
  replace (j - (k - 1 - t)) with (j + 1 - k + t) in H4 by lia.
  apply H4. lia.
Qed.

Lemma run_extends (alo blo bhi i j : nat) (j2len : list (nat * nat)) :
  alo <= i -> blo <= j -> j < bhi -> A i = B j ->
  (forall j', 0 < j2len_get j2len j' -> 1 <= i /\
              run_ends alo blo bhi (i - 1) j' (j2len_get j2len j')) ->
  run_ends alo blo bhi i j (j2len_prev j2len j + 1).
Proof.
  intros Hi Hj Hb Heq Hprev. unfold j2len_prev.
  destruct j as [|j'].
  - repeat split; try lia. intros t Ht. replace t with 0 by lia.
    now rewrite !Nat.sub_0_r.
  - destruct (Nat.eq_dec (j2len_get j2len j') 0) as [E|E].
    + rewrite E. repeat split; try lia. intros t Ht. replace t with 0 by lia.
      now rewrite !Nat.sub_0_r.
    + destruct (Hprev j') as [H0 [H1 [H2 [H3 H4]]]]; [lia|].
      repeat split; try lia.
      intros t Ht. destruct t as [|t]; [now rewrite !Nat.sub_0_r|].
      specialize (H4 t).
      replace (i - S t) with (i - 1 - t) by lia.
      replace (S j' - S t) with (j' - t) by lia.
      apply H4. lia.
Qed.

Lemma scan_row_ok (alo ahi blo bhi i : nat) (j2len : list (nat * nat))
  (js : list nat) (newj2len : list (nat * nat)) (best : block) :
  alo <= i -> i < ahi ->
  (forall j, In j js -> A i = B j) ->
  (forall j', 0 < j2len_get j2len j' -> 1 <= i /\
              run_ends alo blo bhi (i - 1) j' (j2len_get j2len j')) ->
  row_ok alo blo bhi i newj2len ->
  block_ok alo ahi blo bhi best ->
  row_ok alo blo bhi i (fst (scan_row i blo bhi j2len js newj2len best)) /\
  block_ok alo ahi blo bhi (snd (scan_row i blo bhi j2len js newj2len best)).
Proof.
  intros Hlo Hhi. revert newj2len best.
  induction js as [|j js IH]; intros newj2len best Hjs Hprev Hnew Hbest; simpl.
  - now split.
  - destruct (j <? blo) eqn:E1.
    { apply IH; auto. intros j' Hj'. apply Hjs. now right. }
    destruct (bhi <=? j) eqn:E2; [now split|].
    apply Nat.ltb_ge in E1. apply Nat.leb_gt in E2.
    assert (Hrun : run_ends alo blo bhi i j (j2len_prev j2len j + 1)).
    { apply run_extends; auto. apply Hjs. now left. }
    destruct best as [[bi bj] bs].
    apply IH.
    + intros j' Hj'. apply Hjs. now right.
    + assumption.
    + intros j' Hpos. simpl in *. destruct (Nat.eqb_spec j j') as [->|Hne].
      * assumption.
      * now apply Hnew.
    + destruct (bs <? j2len_prev j2len j + 1); [|assumption].
      now apply run_ends_block.
Qed.

Lemma row_ok_shift (alo blo bhi i : nat) (j2len : list (nat * nat)) :
  row_ok alo blo bhi i j2len ->
  forall j', 0 < j2len_get j2len j' ->
             1 <= S i /\ run_ends alo blo bhi (S i - 1) j' (j2len_get j2len j').
Proof.
  intros H j' Hj'. split; [lia|]. replace (S i - 1) with i by lia. now apply H.
Qed.

Lemma scan_rows_ok (alo ahi blo bhi : nat) (n i : nat)
  (j2len : list (nat * nat)) (best : block) :
  alo <= i -> i + n <= ahi ->
  (forall j', 0 < j2len_get j2len j' -> 1 <= i /\
              run_ends alo blo bhi (i - 1) j' (j2len_get j2len j')) ->
  block_ok alo ahi blo bhi best ->
  block_ok alo ahi blo bhi (scan_rows a b (seq i n) blo bhi j2len best).
Proof.
  revert i j2len best. induction n as [|n IH]; intros i j2len best Hlo Hhi Hprev Hbest;
    simpl; [assumption|].
  destruct (scan_row i blo bhi j2len (b2j b (A i)) [] best) as [nj best'] eqn:E.
  assert (H : row_ok alo blo bhi i nj /\ block_ok alo ahi blo bhi best').
  { pose proof (scan_row_ok alo ahi blo bhi i j2len (b2j b (A i)) [] best) as H.
    rewrite E in H. apply H; auto; try lia.
    - intros j Hj. apply b2j_spec in Hj. symmetry. apply Hj.
    - intros j Hj. simpl in Hj. lia. }
  destruct H as [Hrow Hb'].
  apply IH; try lia; [|assumption].
  now apply row_ok_shift.
Qed.

Lemma extend_left_ok (alo ahi blo bhi bi bj bs : nat) :
  block_ok alo ahi blo bhi (bi, bj, bs) ->
  block_ok alo ahi blo bhi (extend_left a b alo blo bi bj bs).
Proof.
  revert bj bs. induction bi as [|i' IH]; intros bj bs H; simpl; [assumption|].
  destruct ((alo <? S i') && (blo <? bj) && (A i' =? B (bj - 1))%N) eqn:E;
    [|assumption].
  apply andb_prop in E. destruct E as [E E3]. apply andb_prop in E.
  destruct E as [E1 E2].
  apply Nat.ltb_lt in E1. apply Nat.ltb_lt in E2. apply N.eqb_eq in E3.
  apply IH. destruct H as [H1 [H2 [H3 [H4 H5]]]].
  repeat split; try lia.
  intros t Ht. destruct t as [|t].
  - now rewrite !Nat.add_0_r.
  - replace (i' + S t) with (S i' + t) by lia.
    replace (bj - 1 + S t) with (bj + t) by lia. apply H5. lia.
Qed.

Lemma extend_right_ok (rounds alo ahi blo bhi bi bj bs : nat) :
  block_ok alo ahi blo bhi (bi, bj, bs) ->
  block_ok alo ahi blo bhi (extend_right a b rounds ahi bhi bi bj bs).
Proof.
  revert bs. induction rounds as [|r IH]; intros bs H; simpl; [assumption|].
  destruct ((bi + bs <? ahi) && (bj + bs <? bhi)
            && (A (bi + bs) =? B (bj + bs))%N) eqn:E; [|assumption].
  apply andb_prop in E. destruct E as [E E3]. apply andb_prop in E.
  destruct E as [E1 E2].
  apply Nat.ltb_lt in E1. apply Nat.ltb_lt in E2. apply N.eqb_eq in E3.
  apply IH. destruct H as [H1 [H2 [H3 [H4 H5]]]].
  repeat split; try lia.
  intros t Ht. destruct (Nat.eq_dec t bs) as [->|Hne]; [assumption|].
  apply H5. lia.
Qed.

(** The rounds given to [extend_right] are enough: when it stops, the
    condition of the loop is false. *)
Lemma extend_right_done (rounds ahi bhi bi bj bs : nat) :
  ahi - (bi + bs) <= rounds ->
  let '(i, j, k) := extend_right a b rounds ahi bhi bi bj bs in
  (i + k <? ahi) && (j + k <? bhi) && (A (i + k) =? B (j + k))%N = false.
Proof.
  revert bs. induction rounds as [|r IH]; intros bs H; simpl.
  - assert (E : (bi + bs <? ahi) = false) by (apply Nat.ltb_ge; lia).
    now rewrite E.
  - destruct ((bi + bs <? ahi) && (bj + bs <? bhi)
              && (A (bi + bs) =? B (bj + bs))%N) eqn:E; [|exact E].
    apply IH.
    apply andb_prop in E. destruct E as [E _]. apply andb_prop in E.
    destruct E as [E _]. apply Nat.ltb_lt in E. lia.
Qed.

Lemma find_longest_match_ok (alo ahi blo bhi : nat) :
  alo <= ahi -> blo <= bhi ->
  block_ok alo ahi blo bhi (find_longest_match a b alo ahi blo bhi).
Proof.
  intros Ha Hb. unfold find_longest_match.
  pose proof (scan_rows_ok alo ahi blo bhi (ahi - alo) alo [] (alo, blo, 0)) as H.
  destruct (scan_rows a b (seq alo (ahi - alo)) blo bhi [] (alo, blo, 0))
    as [[bi bj] bs].
  assert (H1 : block_ok alo ahi blo bhi (bi, bj, bs)).
  { apply H; try lia.
    - intros j Hj. simpl in Hj. lia.
    - repeat split; try lia. }
  apply (extend_left_ok alo ahi blo bhi) in H1.
  destruct (extend_left a b alo blo bi bj bs) as [[bi' bj'] bs'].
  now apply extend_right_ok.
Qed.

End Blocks.
End difflib_facts.


Module matching_facts.
Import difflib difflib_facts.

(** ** The availability counts of [quick_ratio] *)

Section QuickMatches.
Open Scope Z_scope.
Implicit Types (s : list N) (f g : N -> Z).

(** Counts that agree wherever one of them is positive give the same
    number of matches. *)
Lemma quick_matches_agree s f g :
  (forall y, f y = g y \/ (f y <= 0 /\ g y <= 0)) ->
  quick_matches s f = quick_matches s g.
Proof.
  revert f g. induction s as [|e s IH]; intros f g H; simpl; [reflexivity|].
  assert (Hrec : quick_matches s (fun y : N => if (y =? e)%N then f e - 1 else f y)%Z
                 = quick_matches s (fun y : N => if (y =? e)%N then g e - 1 else g y)%Z).
  { apply IH. intros y. destruct (y =? e)%N; [|apply H].
    destruct (H e) as [E|E]; [left|right]; lia. }
  destruct (H e) as [E|[E1 E2]].
  - rewrite Hrec. now rewrite E.
  - destruct (Z.ltb_spec 0 (f e)); [lia|].
    destruct (Z.ltb_spec 0 (g e)); [lia|]. exact Hrec.
Qed.

Lemma quick_matches_mono s f g :
  (forall y, f y <= g y) -> (quick_matches s f <= quick_matches s g)%nat.
Proof.
  revert f g. induction s as [|e s IH]; intros f g H; simpl; [lia|].
  assert (Hrec : (quick_matches s (fun y : N => if (y =? e)%N then f e - 1 else f y)%Z
                  <= quick_matches s (fun y : N => if (y =? e)%N then g e - 1 else g y)%Z)%nat).
  { apply IH. intros y. destruct (y =? e)%N; [|apply H]. specialize (H e). lia. }
  specialize (H e).
  destruct (Z.ltb_spec 0 (f e)); destruct (Z.ltb_spec 0 (g e)); lia.
Qed.

(** One more available element gives at most one more match. *)
Lemma quick_matches_one_more s f g x :
  (forall y, g y = f y + (if (y =? x)%N then 1 else 0)) ->
  (quick_matches s g <= S (quick_matches s f))%nat.
Proof.
  revert f g. induction s as [|e s IH]; intros f g H; simpl; [lia|].
  destruct (N.eqb_spec e x) as [->|Hne].
  - pose proof (H x) as Hx. rewrite N.eqb_refl in Hx.
    destruct (Z.ltb_spec 0 (f x)); destruct (Z.ltb_spec 0 (g x)); try lia.
    + apply le_n_S. apply IH. intros y. specialize (H y).
      destruct (y =? x)%N; lia.
    + apply le_n_S. apply Nat.eq_le_incl. apply quick_matches_agree.
      intros y. specialize (H y). destruct (y =? x)%N; lia.
    + apply IH. intros y. specialize (H y). destruct (y =? x)%N; lia.
  - pose proof (H e) as He.
    assert (E : (e =? x)%N = false) by now apply N.eqb_neq.
    rewrite E in He. rewrite Z.add_0_r in He. rewrite He.
    assert (Hrec :
      (quick_matches s (fun y : N => if (y =? e)%N then f e - 1 else g y)%Z
       <= S (quick_matches s (fun y : N => if (y =? e)%N then f e - 1 else f y)%Z))%nat).
    { apply IH. intros y. destruct (N.eqb_spec y e) as [->|Hy].
      - rewrite E. lia.
      - apply H. }
    destruct (0 <? f e); lia.
Qed.

Lemma quick_matches_app s1 s2 f g :
  (forall y, 0 <= f y) -> (forall y, 0 <= g y) ->
  (quick_matches s1 f + quick_matches s2 g
   <= quick_matches (s1 ++ s2) (fun y : N => f y + g y)%Z)%nat.
Proof.
  revert f g. induction s1 as [|e s1 IH]; intros f g Hf Hg; simpl.
  - apply quick_matches_mono. intros y. specialize (Hf y). lia.
  - destruct (Z.ltb_spec 0 (f e)) as [Hpos|Hzero].
    + destruct (Z.ltb_spec 0 (f e + g e)) as [_|Hc]; [|specialize (Hg e); lia].
      rewrite (quick_matches_agree (s1 ++ s2) _
                 (fun y : N => (if (y =? e)%N then f e - 1 else f y) + g y)%Z).
      * apply le_n_S. apply IH; [|assumption].
        intros y. destruct (y =? e)%N; [lia | apply Hf].
      * intros y. left. destruct (N.eqb_spec y e) as [->|]; lia.
    + assert (Ef : f e = 0) by (specialize (Hf e); lia).
      rewrite (quick_matches_agree s1 _ f) by
        (intros y; destruct (N.eqb_spec y e) as [->|]; [right; lia | now left]).
      destruct (Z.ltb_spec 0 (f e + g e)) as [Hpos|Hc].
      * rewrite (quick_matches_agree (s1 ++ s2) _
                   (fun y : N => f y + (if (y =? e)%N then g e - 1 else g y))%Z) by
          (intros y; left; destruct (N.eqb_spec y e) as [->|]; lia).
        pose proof (IH f (fun y : N => if (y =? e)%N then g e - 1 else g y)%Z Hf) as H1.
        pose proof (quick_matches_one_more s2
                      (fun y : N => if (y =? e)%N then g e - 1 else g y)%Z g e) as H2.
        assert (H3 : forall y, 0 <= (if (y =? e)%N then g e - 1 else g y)).
        { intros y. destruct (y =? e)%N; [lia | apply Hg]. }
        specialize (H1 H3).
        assert (H4 : forall y, g y = (if (y =? e)%N then g e - 1 else g y)
                                     + (if (y =? e)%N then 1 else 0)).
        { intros y. destruct (N.eqb_spec y e) as [->|]; lia. }
        specialize (H2 H4). lia.
      * rewrite (quick_matches_agree (s1 ++ s2) _ (fun y : N => f y + g y)%Z) by
          (intros y; destruct (N.eqb_spec y e) as [->|]; [right; lia | now left]).
        now apply IH.
Qed.

Lemma positions_length (x : char) s (j j' : nat) :
  length (positions x s j) = length (positions x s j').
Proof.
  revert j j'. induction s as [|y s IH]; intros j j'; simpl; [reflexivity|].
  destruct (y =? x)%N; simpl; [f_equal|]; apply IH.
Qed.

Lemma occurrences_cons (e : char) s (y : char) :
  occurrences (e :: s) y = (if (e =? y)%N then 1 else 0) + occurrences s y.
Proof.
  unfold occurrences. simpl. destruct (e =? y)%N; simpl length;
    rewrite (positions_length y s 1 0); lia.
Qed.

Lemma occurrences_nonneg s (y : char) : 0 <= occurrences s y.
Proof. unfold occurrences. lia. Qed.

Lemma occurrences_app s1 s2 (y : char) :
  occurrences (s1 ++ s2) y = occurrences s1 y + occurrences s2 y.
Proof.
  induction s1 as [|e s1 IH]; simpl app.
  - unfold occurrences at 2. simpl. lia.
  - rewrite !occurrences_cons, IH. lia.
Qed.

(** A string matches itself in full. *)
Lemma quick_matches_self s f :
  (forall y, occurrences s y <= f y) -> quick_matches s f = length s.
Proof.
  revert f. induction s as [|e s IH]; intros f H; simpl; [reflexivity|].
  pose proof (H e) as He. rewrite occurrences_cons, N.eqb_refl in He.
  pose proof (occurrences_nonneg s e).
  destruct (Z.ltb_spec 0 (f e)); [|lia].
  f_equal. apply IH. intros y. specialize (H y).
  rewrite occurrences_cons in H. rewrite (N.eqb_sym y e).
  destruct (N.eqb_spec e y) as [->|]; lia.
Qed.

End QuickMatches.

(** ** Segments *)

Lemma firstn_plus {A : Type} (n m : nat) (l : list A) :
  firstn (n + m) l = firstn n l ++ firstn m (skipn n l).
Proof.
  revert l. induction n as [|n IH]; intros l; simpl; [reflexivity|].
  destruct l as [|x l]; simpl.
  - now rewrite firstn_nil.
  - f_equal. apply IH.
Qed.

Lemma segment_split (s : str) (lo mid hi : nat) :
  lo <= mid -> mid <= hi ->
  segment s lo hi = segment s lo mid ++ segment s mid hi.
Proof.
  intros H1 H2. unfold segment.
  replace (hi - lo) with ((mid - lo) + (hi - mid)) by lia.
  rewrite firstn_plus, skipn_skipn. do 3 f_equal. lia.
Qed.

Lemma segment_length (s : str) (lo hi : nat) :
  hi <= length s -> length (segment s lo hi) = hi - lo.
Proof.
  intros H. unfold segment. rewrite length_firstn, length_skipn. lia.
Qed.

Lemma segment_nth (s : str) (lo hi t : nat) :
  t < hi - lo -> nth t (segment s lo hi) 0%N = nth (lo + t) s 0%N.
Proof.
  intros H. unfold segment. rewrite nth_firstn.
  destruct (Nat.ltb_spec t (hi - lo)); [|lia]. apply nth_skipn.
Qed.

Lemma segment_all (s : str) : segment s 0 (length s) = s.
Proof. unfold segment. rewrite Nat.sub_0_r. simpl. apply firstn_all. Qed.

Section Matching.
Variables a b : str.

Lemma block_segments (alo ahi blo bhi i j k : nat) :
  ahi <= length a -> bhi <= length b ->
  block_ok a b alo ahi blo bhi (i, j, k) ->
  segment a i (i + k) = segment b j (j + k).
Proof.
  intros Ha Hb [H1 [H2 [H3 [H4 H5]]]].
  apply (nth_ext _ _ 0%N 0%N).
  - rewrite !segment_length by lia. lia.
  - intros t Ht. rewrite segment_length in Ht by lia.
    rewrite !segment_nth by lia. apply H5. lia.
Qed.

(** The matched elements are at most the elements of either range. *)
Lemma matching_size_le_min (d alo ahi blo bhi : nat) :
  alo <= ahi -> blo <= bhi ->
  matching_size a b d alo ahi blo bhi <= Nat.min (ahi - alo) (bhi - blo).
Proof.
  revert alo ahi blo bhi. induction d as [|d IH]; intros alo ahi blo bhi Ha Hb;
    simpl; [lia|].
  pose proof (find_longest_match_ok a b alo ahi blo bhi Ha Hb) as Hm.
  destruct (find_longest_match a b alo ahi blo bhi) as [[i j] k].
  destruct Hm as [H1 [H2 [H3 [H4 _]]]].
  destruct (k =? 0); [lia|].
  assert (L : (if (alo <? i) && (blo <? j)
               then matching_size a b d alo i blo j else 0)
              <= Nat.min (i - alo) (j - blo)).
  { destruct ((alo <? i) && (blo <? j)); [apply IH; lia | lia]. }
  assert (R : (if (i + k <? ahi) && (j + k <? bhi)
               then matching_size a b d (i + k) ahi (j + k) bhi else 0)
              <= Nat.min (ahi - (i + k)) (bhi - (j + k))).
  { destruct ((i + k <? ahi) && (j + k <? bhi)); [apply IH; lia | lia]. }
  lia.
Qed.

(** The nesting depth given to [matching_size] is enough: any depth that
    is at least the length of the range of [a] gives the same total. *)
Lemma matching_size_depth (d d' alo ahi blo bhi : nat) :
  alo <= ahi -> blo <= bhi -> ahi - alo <= d -> ahi - alo <= d' ->
  matching_size a b d alo ahi blo bhi = matching_size a b d' alo ahi blo bhi.
Proof.
  revert d' alo ahi blo bhi.
  induction d as [|d IH]; intros d' alo ahi blo bhi Ha Hb Hd Hd'.
  - destruct d' as [|d']; [reflexivity|]. simpl.
    pose proof (find_longest_match_ok a b alo ahi blo bhi Ha Hb) as Hm.
    destruct (find_longest_match a b alo ahi blo bhi) as [[i j] k].
    destruct Hm as [H1 [H2 _]].
    assert (E : k = 0) by lia. now rewrite E.
  - destruct d' as [|d'].
    + simpl.
      pose proof (find_longest_match_ok a b alo ahi blo bhi Ha Hb) as Hm.
      destruct (find_longest_match a b alo ahi blo bhi) as [[i j] k].
      destruct Hm as [H1 [H2 _]].
      assert (E : k = 0) by lia. now rewrite E.
    + simpl.
      pose proof (find_longest_match_ok a b alo ahi blo bhi Ha Hb) as Hm.
      destruct (find_longest_match a b alo ahi blo bhi) as [[i j] k].
      destruct Hm as [H1 [H2 [H3 [H4 _]]]].
      destruct (Nat.eqb_spec k 0) as [|Hk]; [reflexivity|].
      f_equal; [f_equal|].
      * destruct ((alo <? i) && (blo <? j)); [apply IH; lia | reflexivity].
      * destruct ((i + k <? ahi) && (j + k <? bhi)); [apply IH; lia | reflexivity].
Qed.

(** The matched elements are at most what [quick_ratio] counts. *)
Lemma matching_size_le_quick (d alo ahi blo bhi : nat) :
  alo <= ahi -> ahi <= length a -> blo <= bhi -> bhi <= length b ->
  matching_size a b d alo ahi blo bhi
  <= quick_matches (segment a alo ahi) (occurrences (segment b blo bhi)).
Proof.
  revert alo ahi blo bhi.
  induction d as [|d IH]; intros alo ahi blo bhi Ha Ha' Hb Hb'; simpl; [lia|].
  pose proof (find_longest_match_ok a b alo ahi blo bhi Ha Hb) as Hm.
  destruct (find_longest_match a b alo ahi blo bhi) as [[i j] k].
  pose proof (block_segments alo ahi blo bhi i j k Ha' Hb' Hm) as Hseg.
  destruct Hm as [H1 [H2 [H3 [H4 _]]]].
  destruct (k =? 0); [lia|].
  assert (L : (if (alo <? i) && (blo <? j)
               then matching_size a b d alo i blo j else 0)
              <= quick_matches (segment a alo i) (occurrences (segment b blo j))).
  { destruct ((alo <? i) && (blo <? j)); [apply IH; lia | lia]. }
  assert (R : (if (i + k <? ahi) && (j + k <? bhi)
               then matching_size a b d (i + k) ahi (j + k) bhi else 0)
              <= quick_matches (segment a (i + k) ahi)
                   (occurrences (segment b (j + k) bhi))).
  { destruct ((i + k <? ahi) && (j + k <? bhi)); [apply IH; lia | lia]. }
  assert (M : quick_matches (segment a i (i + k))
                (occurrences (segment b j (j + k))) = k).
  { rewrite <- Hseg. rewrite quick_matches_self by (intros y; lia).
    rewrite segment_length by lia. lia. }
  rewrite (segment_split a alo i ahi) by lia.
  rewrite (segment_split a i (i + k) ahi) by lia.
  rewrite (quick_matches_agree _ (occurrences (segment b blo bhi))
             (fun y : N => (occurrences (segment b blo j) y
                        + (occurrences (segment b j (j + k)) y
                           + occurrences (segment b (j + k) bhi) y))%Z)).
  2:{ intros y. left.
      rewrite (segment_split b blo j bhi) by lia.
      rewrite (segment_split b j (j + k) bhi) by lia.
      now rewrite !occurrences_app. }
  pose proof (quick_matches_app (segment a alo i)
                (segment a i (i + k) ++ segment a (i + k) ahi)
                (occurrences (segment b blo j))
                (fun y : N => (occurrences (segment b j (j + k)) y
                           + occurrences (segment b (j + k) bhi) y)%Z)) as Q1.
  pose proof (quick_matches_app (segment a i (i + k)) (segment a (i + k) ahi)
                (occurrences (segment b j (j + k)))
                (occurrences (segment b (j + k) bhi))) as Q2.
  pose proof occurrences_nonneg as Hn.
  specialize (Q2 (Hn _) (Hn _)).
  assert (Q1' := Q1 (Hn _) (fun y => Z.add_nonneg_nonneg _ _ (Hn _ y) (Hn _ y))).
  cbv beta in Q1'.
  eapply Nat.le_trans; [|exact Q1'].
  eapply Nat.le_trans; [|apply Nat.add_le_mono_l; exact Q2].
  lia.
Qed.

Lemma matches_le_min : matches a b <= Nat.min (length a) (length b).
Proof.
  unfold matches.
  pose proof (matching_size_le_min (length a) 0 (length a) 0 (length b)) as H.
  rewrite !Nat.sub_0_r in H. apply H; lia.
Qed.

Lemma matches_le_quick : matches a b <= quick_matches a (fullbcount b).
Proof.
  unfold matches.
  pose proof (matching_size_le_quick (length a) 0 (length a) 0 (length b)) as H.
  rewrite !segment_all in H. apply H; lia.
Qed.

End Matching.

(** ** Ratios *)

Section Ratios.
Open Scope Q_scope.

Lemma calculate_ratio_mono (c : Q) (m m' len : nat) :
  (m <= m')%nat ->
  Qle_bool c (_calculate_ratio m len) = true ->
  Qle_bool c (_calculate_ratio m' len) = true.
Proof.
  intros Hm. unfold _calculate_ratio. destruct (len =? 0)%nat; [tauto|].
  rewrite !Qle_bool_iff. intros H. eapply Qle_trans; [exact H|].
  unfold Qle. simpl. apply Z.mul_le_mono_nonneg_r; lia.
Qed.

(** The two quick tests of [get_close_matches] never reject a candidate
    that the test on [ratio] accepts. *)
Lemma good_enough_ratio (c : Q) (word x : str) :
  good_enough c word x = Qle_bool c (ratio x word).
Proof.
  unfold good_enough.
  destruct (Qle_bool c (ratio x word)) eqn:E; [|now rewrite andb_false_r].
  unfold real_quick_ratio, quick_ratio. unfold ratio in E.
  rewrite (calculate_ratio_mono c _ _ _ (matches_le_min x word) E).
  rewrite (calculate_ratio_mono c _ _ _ (matches_le_quick x word) E).
  reflexivity.
Qed.

(** The similarity lies in the closed interval from 0 to 1. *)
Lemma ratio_bounds (a b : str) : 0 <= ratio a b <= 1.
Proof.
  unfold ratio, _calculate_ratio. pose proof (matches_le_min a b) as H.
  destruct (Nat.eqb_spec (length a + length b) 0) as [E|E].
  - split; unfold Qle; simpl; lia.
  - split; unfold Qle; simpl; [lia|].
    rewrite Z.mul_1_r.
    rewrite <- (positive_nat_Z (Pos.of_nat (length a + length b))).
    rewrite Nat2Pos.id by assumption. lia.
Qed.

End Ratios.
End matching_facts.


(* ================================================================== *)
(** * Resolver: the fuzzy path *)

Section Ranking.
Import difflib.

Lemma insert_desc_In (p q : scored) (l : list scored) :
  In q (insert_desc p l) <-> q = p \/ In q l.
Proof.
  induction l as [|r l IH]; simpl.
  - split; intros [H|H]; auto.
  - destruct (scored_compare p r); simpl; rewrite ?IH; split; intuition auto.
Qed.

Lemma sort_desc_In (q : scored) (l : list scored) :
  In q (sort_desc l) <-> In q l.
Proof.
  induction l as [|p l IH]; simpl; [tauto|].
  rewrite insert_desc_In, IH. split; intuition auto.
Qed.

Lemma firstn_incl {A : Type} (n : nat) (l : list A) (x : A) :
  In x (firstn n l) -> In x l.
Proof.
  intros H. rewrite <- (firstn_skipn n l). apply in_or_app. now left.
Qed.

Lemma ranked_keys (ALIAS : dict str) (qn m : str) :
  In m (ranked ALIAS qn) -> In m (dict_keys ALIAS).
Proof.
  unfold ranked. rewrite in_map_iff. intros [[r x] [E H]]. simpl in E. subst x.
  apply (proj1 (sort_desc_In _ _)) in H. apply in_map_iff in H.
  destruct H as [x [E H]]. injection E as _ ->.
  now apply filter_In in H.
Qed.

Lemma scored_candidates (c : Q) (word : str) (l : list str) :
  flat_map (fun x => if good_enough c word x then [(ratio x word, x)] else []) l
  = map (fun x => (ratio x word, x))
      (filter (fun x => Qle_bool c (ratio x word)) l).
Proof.
  induction l as [|x l IH]; simpl; [reflexivity|].
  rewrite matching_facts.good_enough_ratio.
  destruct (Qle_bool c (ratio x word)); simpl; now rewrite IH.
Qed.

(** [get_close_matches] returns the first [limit] of the ranked aliases. *)
Lemma get_close_matches_ranked (ALIAS : dict str) (qn : str) (limit : Z) :
  (0 < limit)%Z ->
  get_close_matches qn (dict_keys ALIAS) limit cutoff
  = Ok (firstn (Z.to_nat limit) (ranked ALIAS qn)).
Proof.
  intros H. unfold get_close_matches.
  destruct (Z.ltb_spec 0 limit); [|lia]. simpl.
  rewrite scored_candidates. unfold _nlargest, ranked, similarity.
  now rewrite firstn_map.
Qed.

End Ranking.

Lemma canon_keys_cons (ALIAS : dict str) (m c : str) (l : list str) :
  dict_get m ALIAS = Some c ->
  canon_keys ALIAS (m :: l) = c :: canon_keys ALIAS l.
Proof. intros H. unfold canon_keys. simpl. now rewrite H. Qed.

Lemma canon_keys_In (ALIAS : dict str) (c : str) (l : list str) :
  In c (canon_keys ALIAS l) -> exists m, In (m, c) ALIAS.
Proof.
  unfold canon_keys. rewrite in_flat_map. intros [m [_ H]].
  destruct (dict_get m ALIAS) as [c'|] eqn:E; [|contradiction].
  destruct H as [->|[]]. exists m. now apply dict_get_In.
Qed.

Lemma dedup_In (seen l : list str) (x : str) : In x (dedup seen l) -> In x l.
Proof.
  revert seen. induction l as [|y l IH]; intros seen; simpl; [tauto|].
  destruct (one_of y seen); simpl; intros H.
  - right. now apply (IH seen).
  - destruct H as [H|H]; [now left | right; now apply (IH (y :: seen))].
Qed.

(** The loop of [search_foods] takes first occurrences until it holds
    [n] keys, and at least one. *)
Lemma collect_dedup (ALIAS : dict str) (n : Z) (maybes seen out : list str) :
  (forall m, In m maybes -> In m (dict_keys ALIAS)) ->
  (forall x, In x seen <-> In x out) ->
  (Z.of_nat (length out) < n)%Z \/ out = [] ->
  collect ALIAS n maybes seen out
  = Ok (out ++ firstn (Z.to_nat (Z.max n 1) - length out)
                 (dedup seen (canon_keys ALIAS maybes))).
Proof.
  revert seen out. induction maybes as [|m rest IH]; intros seen out Hk Hs Hn.
  - simpl. now rewrite firstn_nil, app_nil_r.
  - destruct (dict_keys_get m ALIAS) as [c Hc]; [apply Hk; now left|].
    rewrite (canon_keys_cons ALIAS m c rest Hc).
    simpl. unfold dict_item. rewrite Hc. simpl.
    assert (Hk' : forall m', In m' rest -> In m' (dict_keys ALIAS))
      by (intros m' H'; apply Hk; now right).
    destruct (one_of c seen) eqn:Es.
    + assert (Hout : out <> []).
      { apply one_of_In in Es. apply Hs in Es. now destruct out. }
      destruct (Z.leb_spec n (Z.of_nat (length out))) as [Hle|Hlt];
        [destruct Hn; [lia | contradiction]|].
      now apply IH.
    + assert (Hpos : Z.to_nat (Z.max n 1) - length out
                     = S (Z.to_nat (Z.max n 1) - length (out ++ [c]))).
      { rewrite length_app. simpl. destruct Hn as [Hn| ->]; simpl; lia. }
      rewrite Hpos. simpl firstn.
      destruct (Z.leb_spec n (Z.of_nat (length (out ++ [c])))) as [Hle|Hlt].
      * replace (Z.to_nat (Z.max n 1) - length (out ++ [c])) with 0.
        -- simpl. reflexivity.
        -- rewrite length_app in *. simpl in *.
           destruct Hn as [Hn| ->]; simpl in *; lia.
      * rewrite IH; [now rewrite <- app_assoc | assumption | | now left].
        intros x. simpl. rewrite in_app_iff, Hs. simpl. tauto.
Qed.

(** The fuzzy fallback of [search_foods], in closed form. *)
Lemma search_foods_fuzzy (ALIAS : dict str) (q : str) (n : Z) :
  _norm q <> [] -> dict_mem (_norm q) ALIAS = false ->
  search_foods_traced ALIAS q n
  = (Ok (fuzzy_code ALIAS (_norm q) n),
     [CloseMatches (_norm q) (dict_keys ALIAS) (Z.max (n * 3) 60)]).
Proof.
  intros Hq Hm. unfold search_foods_traced.
  destruct (_norm q) as [|x qn] eqn:E; [contradiction|]. simpl is_empty.
  cbv iota. rewrite Hm. f_equal.
  rewrite get_close_matches_ranked by lia. simpl bind.
  rewrite collect_dedup.
  - simpl. now rewrite Nat.sub_0_r.
  - intros m H. apply firstn_incl in H. now apply ranked_keys in H.
  - tauto.
  - now right.
Qed.

Lemma dedup_length_le (seen l : list str) : length (dedup seen l) <= length l.
Proof.
  revert seen. induction l as [|y l IH]; intros seen; simpl; [lia|].
  destruct (one_of y seen); simpl; [specialize (IH seen) | specialize (IH (y :: seen))]; lia.
Qed.

(** [search_foods] always returns, whatever the alias map. *)
Lemma search_foods_total (ALIAS : dict str) (q : str) (n : Z) :
  exists out,
    search_foods ALIAS q n = Ok out /\
    ((_norm q = [] /\ out = [])
     \/ (_norm q <> [] /\ exists c, dict_get (_norm q) ALIAS = Some c /\ out = [c])
     \/ (_norm q <> [] /\ dict_mem (_norm q) ALIAS = false
         /\ out = fuzzy_code ALIAS (_norm q) n)).
Proof.
  unfold search_foods.
  destruct (_norm q) as [|x qn] eqn:E.
  - exists []. rewrite search_foods_no_query by assumption. auto.
  - assert (Hq : _norm q <> []) by (rewrite E; discriminate).
    rewrite <- E in *.
    destruct (dict_get (_norm q) ALIAS) as [c|] eqn:Hc.
    + exists [c]. rewrite (search_foods_exact ALIAS q n c Hq Hc). simpl.
      split; [reflexivity|]. right. left. split; [assumption|]. now exists c.
    + assert (Hm : dict_mem (_norm q) ALIAS = false)
        by (unfold dict_mem; now rewrite Hc).
      eexists. rewrite (search_foods_fuzzy ALIAS q n Hq Hm). simpl.
      split; [reflexivity|]. right. right. auto.
Qed.


(** ** The ranking is the thresholded aliases, best first *)

Section RankingOrder.
Import difflib.

Lemma scored_compare_Lt (p q : scored) :
  scored_compare p q = Lt -> (fst p <= fst q)%Q.
Proof.
  unfold scored_compare. destruct (Qcompare_spec (fst p) (fst q)) as [H|H|H].
  - intros _. rewrite H. apply Qle_refl.
  - intros _. now apply Qlt_le_weak.
  - discriminate.
Qed.

Lemma scored_compare_not_Lt (p q : scored) :
  scored_compare p q <> Lt -> (fst q <= fst p)%Q.
Proof.
  unfold scored_compare. destruct (Qcompare_spec (fst p) (fst q)) as [H|H|H].
  - intros _. rewrite H. apply Qle_refl.
  - intros C. now contradiction C.
  - intros _. now apply Qlt_le_weak.
Qed.

Lemma insert_desc_perm (p : scored) (l : list scored) :
  Permutation (insert_desc p l) (p :: l).
Proof.
  induction l as [|q l IH]; simpl; [apply Permutation_refl|].
  destruct (scored_compare p q); try apply Permutation_refl.
  eapply Permutation_trans; [apply perm_skip, IH | apply perm_swap].
Qed.

Lemma sort_desc_perm (l : list scored) : Permutation (sort_desc l) l.
Proof.
  induction l as [|p l IH]; simpl; [constructor|].
  eapply Permutation_trans; [apply insert_desc_perm | now apply perm_skip].
Qed.

Lemma insert_desc_sorted (p : scored) (l : list scored) :
  StronglySorted score_ge l -> StronglySorted score_ge (insert_desc p l).
Proof.
  induction 1 as [|q l Hs IH Hq]; simpl.
  - constructor; constructor.
  - destruct (scored_compare p q) eqn:E.
    + constructor; [now constructor|]. constructor.
      * apply scored_compare_not_Lt. congruence.
      * eapply Forall_impl; [|exact Hq]. intros r Hr. unfold score_ge in *.
        eapply Qle_trans; [exact Hr|]. apply scored_compare_not_Lt. congruence.
    + constructor; [exact IH|].
      apply Forall_forall. intros r Hr. apply insert_desc_In in Hr.
      destruct Hr as [->|Hr].
      * now apply scored_compare_Lt.
      * rewrite Forall_forall in Hq. now apply Hq.
    + constructor; [now constructor|]. constructor.
      * apply scored_compare_not_Lt. congruence.
      * eapply Forall_impl; [|exact Hq]. intros r Hr. unfold score_ge in *.
        eapply Qle_trans; [exact Hr|]. apply scored_compare_not_Lt. congruence.
Qed.

Lemma sort_desc_sorted (l : list scored) : StronglySorted score_ge (sort_desc l).
Proof.
  induction l as [|p l IH]; simpl; [constructor | now apply insert_desc_sorted].
Qed.

Lemma sorted_by_score (sim : str -> Q) (l : list scored) :
  StronglySorted score_ge l ->
  (forall p, In p l -> fst p = sim (snd p)) ->
  StronglySorted (fun x y => (sim y <= sim x)%Q) (map snd l).
Proof.
  induction 1 as [|p l Hs IH Hp]; intros Hf; simpl; constructor.
  - apply IH. intros q Hq. apply Hf. now right.
  - apply Forall_forall. intros y Hy. apply in_map_iff in Hy.
    destruct Hy as [q [<- Hq]]. rewrite Forall_forall in Hp.
    specialize (Hp q Hq). unfold score_ge in Hp.
    rewrite <- (Hf p) by now left. rewrite <- (Hf q) by now right. exact Hp.
Qed.

(** [ranked] holds exactly the alias strings whose similarity with the
    query reaches the cutoff, each as often as among the keys, in order of
    descending similarity. *)
Lemma ranked_sorted (ALIAS : dict str) (qn : str) :
  Permutation (ranked ALIAS qn)
    (filter (fun x => Qle_bool cutoff (similarity qn x)) (dict_keys ALIAS))
  /\ StronglySorted (fun x y => (similarity qn y <= similarity qn x)%Q)
       (ranked ALIAS qn).
Proof.
  unfold ranked. split.
  - eapply Permutation_trans; [apply Permutation_map, sort_desc_perm|].
    rewrite map_map. simpl. rewrite map_id. apply Permutation_refl.
  - apply sorted_by_score; [apply sort_desc_sorted|].
    intros p Hp. apply (proj1 (sort_desc_In _ _)) in Hp.
    apply in_map_iff in Hp. destruct Hp as [x [<- _]]. reflexivity.
Qed.

End RankingOrder.

(** When the cap on the candidates does not bite and the limit is
    positive, the code computes the list the specification describes. *)
Lemma fuzzy_code_spec (ALIAS : dict str) (qn : str) (n : Z) :
  (1 <= n)%Z ->
  length (ranked ALIAS qn) <= Z.to_nat (Z.max (n * 3) 60) ->
  fuzzy_code ALIAS qn n = fuzzy_spec ALIAS qn n.
Proof.
  intros Hn Hl. unfold fuzzy_code, fuzzy_spec.
  rewrite (firstn_all2 (ranked ALIAS qn)) by assumption.
  now rewrite Z.max_l by lia.
Qed.

(** C1, as the code has it.  For a query whose normal form is not empty
    and is not an alias, [search_foods] returns: the alias strings whose
    similarity with the normal form (a ratio between 0 and 1) is at least
    0.45, in order of descending similarity; of these the first
    [max(3*limit, 60)] only; their canonical keys with repetitions dropped,
    first occurrence kept; and of those the first [max(limit, 1)].  With a
    positive limit and no more than [max(3*limit, 60)] candidates this is
    the list of the specification. *)
Theorem fuzzy_fallback_ranks_and_truncates
  (ALIAS : dict str) (q : str) (n : Z) :
  _norm q <> [] ->
  dict_mem (_norm q) ALIAS = false ->
  search_foods ALIAS q n = Ok (fuzzy_code ALIAS (_norm q) n)
  /\ (forall x, (0 <= similarity (_norm q) x <= 1)%Q)
  /\ Permutation (ranked ALIAS (_norm q))
       (filter (fun x => Qle_bool cutoff (similarity (_norm q) x))
          (dict_keys ALIAS))
  /\ StronglySorted
       (fun x y => (similarity (_norm q) y <= similarity (_norm q) x)%Q)
       (ranked ALIAS (_norm q))
  /\ ((1 <= n)%Z ->
      length (ranked ALIAS (_norm q)) <= Z.to_nat (Z.max (n * 3) 60) ->
      search_foods ALIAS q n = Ok (fuzzy_spec ALIAS (_norm q) n)).
Proof.
  intros Hq Hm.
  assert (E : search_foods ALIAS q n = Ok (fuzzy_code ALIAS (_norm q) n)).
  { unfold search_foods. now rewrite search_foods_fuzzy. }
  split; [exact E|]. split; [|split; [|split]].
  - intros x. apply matching_facts.ratio_bounds.
  - apply ranked_sorted.
  - apply ranked_sorted.
  - intros Hn Hl. rewrite E. f_equal. now apply fuzzy_code_spec.
Qed.

Lemma fuzzy_fallback_ranks_and_truncates_witness :
  search_foods spinach_alias u{"spinch"} 5 = Ok [u{"spinach"}]
  /\ search_foods spinach_alias u{"spinch"} 5
     = Ok (fuzzy_spec spinach_alias u{"spinch"} 5).
Proof.
  destruct (fuzzy_fallback_ranks_and_truncates spinach_alias u{"spinch"} 5)
    as [H1 [_ [_ [_ H2]]]].
  - vm_compute. discriminate.
  - vm_compute. reflexivity.
  - split.
    + rewrite H1. vm_compute. reflexivity.
    + apply H2; vm_compute; [discriminate | lia].
Defined.

Lemma dedup_In_iff (seen l : list str) (x : str) :
  In x (dedup seen l) <-> In x l /\ ~ In x seen.
Proof.
  revert seen. induction l as [|y l IH]; intros seen; simpl; [tauto|].
  destruct (one_of y seen) eqn:E.
  - apply one_of_In in E. rewrite IH. split; [tauto|].
    intros [[->|H] Hn]; [contradiction | tauto].
  - assert (Hy : ~ In y seen).
    { intros C. apply one_of_In in C. congruence. }
    simpl. rewrite IH. simpl. split.
    + intros [->|[H Hn]]; [tauto|]. split; [tauto|]. intros C. apply Hn. tauto.
    + intros [[->|H] Hn]; [tauto|].
      destruct (str_eq_dec y x) as [->|Hne]; [tauto|]. right. split; [assumption|].
      intros [C|C]; [contradiction|contradiction].
Qed.

Lemma two_members {A : Type} (l : list A) (x y : A) :
  In x l -> In y l -> x <> y -> 2 <= length l.
Proof.
  destruct l as [|a [|b l]]; simpl; try tauto; [|lia].
  intros [->|[]] [->|[]] H. contradiction.
Qed.

(** Whatever the order given to the candidates, deduplicating and
    truncating to 2 as the specification says leaves two keys when the
    candidates belong to two foods. *)
Lemma two_foods_two_keys (ALIAS : dict str) (cands r : list str) (x y : str) :
  Permutation r cands ->
  In x (canon_keys ALIAS cands) -> In y (canon_keys ALIAS cands) -> x <> y ->
  length (firstn 2 (dedup [] (canon_keys ALIAS r))) = 2.
Proof.
  intros Hp Hx Hy Hne.
  assert (Hc : Permutation (canon_keys ALIAS cands) (canon_keys ALIAS r)).
  { unfold canon_keys. apply Permutation_flat_map. now apply Permutation_sym. }
  rewrite length_firstn. apply Nat.min_l.
  apply (two_members _ x y); [| |assumption]; apply dedup_In_iff;
    (split; [|intros []]); eapply Permutation_in; eauto.
Qed.

(** C1 fails as stated.  In a corpus where the sixty-one aliases most
    similar to the query [spinac] all belong to [spinach], a limit of 2
    gives that one key although [spice] is similar enough as well: sorted
    as the code sorts the list of the claim is [spinach, spice], and in
    whatever order the candidates are taken it has two keys.  A limit of 0
    gives one key where truncation leaves none. *)
Lemma fuzzy_fallback_counterexample :
  (exists FOODS, build_indexes crowded_corpus = Ok (FOODS, crowded_alias))
  /\ _norm u{"spinac"} <> []
  /\ dict_mem (_norm u{"spinac"}) crowded_alias = false
  /\ search_foods crowded_alias u{"spinac"} 2 = Ok [u{"spinach"}]
  /\ fuzzy_spec crowded_alias (_norm u{"spinac"}) 2 = [u{"spinach"}; u{"spice"}]
  /\ (forall r,
        Permutation r
          (filter (fun x => Qle_bool cutoff (similarity (_norm u{"spinac"}) x))
             (dict_keys crowded_alias)) ->
        length (firstn 2 (dedup [] (canon_keys crowded_alias r))) = 2)
  /\ search_foods crowded_alias u{"spinac"} 0 = Ok [u{"spinach"}]
  /\ fuzzy_spec crowded_alias (_norm u{"spinac"}) 0 = [].
Proof.
  split; [eexists; vm_compute; reflexivity|].
  split; [vm_compute; discriminate|].
  split; [vm_compute; reflexivity|].
  split; [vm_compute; reflexivity|].
  split; [vm_compute; reflexivity|].
  split; [|split; vm_compute; reflexivity].
  intros r Hr.
  apply (two_foods_two_keys crowded_alias _ r u{"spinach"} u{"spice"} Hr).
  - apply one_of_In. vm_compute. reflexivity.
  - apply one_of_In. vm_compute. reflexivity.
  - vm_compute. discriminate.
Qed.

(* ================================================================== *)
(** * Resolver: size and soundness of the result *)

Lemma fuzzy_code_length (ALIAS : dict str) (qn : str) (n : Z) :
  (Z.of_nat (length (fuzzy_code ALIAS qn n)) <= Z.max n 1)%Z.
Proof.
  unfold fuzzy_code.
  pose proof (firstn_le_length (Z.to_nat (Z.max n 1))
                (dedup [] (canon_keys ALIAS
                   (firstn (Z.to_nat (Z.max (n * 3) 60)) (ranked ALIAS qn))))).
  lia.
Qed.

Lemma fuzzy_code_one (ALIAS : dict str) (qn : str) (n : Z) :
  (n <= 0)%Z -> ranked ALIAS qn <> [] ->
  exists c, fuzzy_code ALIAS qn n = [c].
Proof.
  intros Hn Hr. unfold fuzzy_code.
  destruct (ranked ALIAS qn) as [|m rest] eqn:E; [contradiction|].
  destruct (dict_keys_get m ALIAS) as [c Hc].
  { apply (ranked_keys ALIAS qn). rewrite E. now left. }
  exists c.
  replace (Z.to_nat (Z.max (n * 3) 60)) with (S 59) by lia.
  replace (Z.to_nat (Z.max n 1)) with 1 by lia.
  rewrite firstn_cons, (canon_keys_cons ALIAS m c _ Hc). reflexivity.
Qed.

(** C10.  For every alias map, query and integer limit [n], [search_foods]
    returns a list of at most [max(n, 1)] keys; and with [n <= 0] a query
    that is an alias, or one that has a fuzzy candidate, still gets exactly
    one key. *)
Theorem result_length_at_most_limit_or_one
  (ALIAS : dict str) (q : str) (n : Z) :
  exists out,
    search_foods ALIAS q n = Ok out
    /\ (Z.of_nat (length out) <= Z.max n 1)%Z
    /\ ((n <= 0)%Z -> _norm q <> [] ->
        dict_mem (_norm q) ALIAS = true \/ ranked ALIAS (_norm q) <> [] ->
        length out = 1).
Proof.
  destruct (search_foods_total ALIAS q n) as [out [E H]].
  exists out. split; [exact E|].
  destruct H as [[Hq ->]|[[Hq [c [Hc ->]]]|[Hq [Hm ->]]]].
  - split; [simpl; lia|]. intros _ Hne. contradiction.
  - split; [simpl; lia|]. reflexivity.
  - split; [apply fuzzy_code_length|].
    intros Hn _ [Hmem|Hr]; [congruence|].
    destruct (fuzzy_code_one ALIAS (_norm q) n Hn Hr) as [c ->]. reflexivity.
Qed.

Lemma result_length_at_most_limit_or_one_witness :
  exists out,
    search_foods spinach_alias u{"spinch"} 0 = Ok out /\ length out = 1.
Proof.
  destruct (result_length_at_most_limit_or_one spinach_alias u{"spinch"} 0)
    as [out [E [_ H]]].
  exists out. split; [exact E|]. apply H.
  - lia.
  - vm_compute. discriminate.
  - right. vm_compute. discriminate.
Defined.

Lemma fuzzy_code_values (ALIAS : dict str) (qn : str) (n : Z) (c : str) :
  In c (fuzzy_code ALIAS qn n) -> exists m, In (m, c) ALIAS.
Proof.
  unfold fuzzy_code. intros H. apply firstn_incl in H. apply dedup_In in H.
  now apply canon_keys_In in H.
Qed.

(** Every key that [search_foods] returns is a value of the alias map. *)
Lemma search_foods_values (ALIAS : dict str) (q : str) (n : Z)
  (out : list str) (c : str) :
  search_foods ALIAS q n = Ok out -> In c out -> exists m, In (m, c) ALIAS.
Proof.
  intros E Hc. destruct (search_foods_total ALIAS q n) as [out' [E' H]].
  rewrite E in E'. injection E' as <-.
  destruct H as [[Hq ->]|[[Hq [c' [Hc' ->]]]|[Hq [Hm ->]]]].
  - contradiction.
  - destruct Hc as [<-|[]]. exists (_norm q). now apply dict_get_In.
  - now apply fuzzy_code_values in Hc.
Qed.

(** C9.  For every corpus: if its records are well formed the indexer
    builds a pair of indexes; and in any pair it builds, every value of
    the alias map is a key of the foods map, so [search_foods], which
    always returns, returns only keys under which the foods map has a
    record, on the exact path and on the fuzzy path, and [FOODS[key]] does
    not fail for them. *)
Theorem alias_values_are_food_keys (raw : dict json) :
  (Forall (fun kv => well_formed_record (snd kv)) raw ->
   exists FOODS ALIAS, build_indexes raw = Ok (FOODS, ALIAS))
  /\ forall FOODS ALIAS,
      build_indexes raw = Ok (FOODS, ALIAS) ->
      (forall k c, In (k, c) ALIAS -> dict_mem c FOODS = true)
      /\ (forall q n, exists out,
             search_foods ALIAS q n = Ok out
             /\ forall key, In key out ->
                            exists it, dict_item FOODS key = Ok it).
Proof.
  split.
  - intros Hw. destruct (build_indexes_total raw Hw) as [[FOODS ALIAS] E].
    now exists FOODS, ALIAS.
  - intros FOODS ALIAS Hb.
    pose proof (build_indexes_sound raw (FOODS, ALIAS) Hb) as Hs.
    split.
    + intros k c Hin. now apply (Hs k c).
    + intros q n. destruct (search_foods_total ALIAS q n) as [out [E _]].
      exists out. split; [exact E|]. intros key Hk.
      destruct (search_foods_values ALIAS q n out key E Hk) as [m Hm].
      destruct (Hs m key Hm) as [Hmem _]. simpl in Hmem.
      apply dict_mem_true in Hmem. destruct Hmem as [it Hit].
      exists it. now apply dict_item_Ok.
Qed.

Lemma alias_values_are_food_keys_witness :
  (forall k c, In (k, c) spinach_alias ->
               dict_mem c (fst spinach_indexes) = true)
  /\ (forall q n, exists out,
         search_foods spinach_alias q n = Ok out
         /\ forall key, In key out ->
                        exists it, dict_item (fst spinach_indexes) key = Ok it).
Proof.
  apply (proj2 (alias_values_are_food_keys spinach_corpus)).
  vm_compute. reflexivity.
Defined.


(* ================================================================== *)
(** * The confidence check of [cmd_food] *)

Section Confidence.
Variable title : str -> str.
Variables (FOODS : dict item) (ALIAS : dict str).




End Confidence.




(* ================================================================== *)
(** * More on the normaliser *)

Section NormaliserLaws.

Lemma lstrip_fixed (s : str) :
  hd_error (lstrip s) = None \/
  exists c, hd_error (lstrip s) = Some c /\ isspace c = false.
Proof.
  induction s as [|c s IH]; simpl; [now left|].
  destruct (isspace c) eqn:E; [exact IH|]. right. now exists c.
Qed.

Lemma lstrip_id (s : str) :
  (forall c, hd_error s = Some c -> isspace c = false) -> lstrip s = s.
Proof.
  destruct s as [|c s]; simpl; [reflexivity|]. intros H.
  now rewrite (H c eq_refl).
Qed.

Lemma lstrip_lstrip (s : str) : lstrip (lstrip s) = lstrip s.
Proof.
  apply lstrip_id. intros c Hc.
  destruct (lstrip_fixed s) as [H|[c' [H E]]]; congruence.
Qed.

Lemma rstrip_rstrip (s : str) : rstrip (rstrip s) = rstrip s.
Proof. unfold rstrip. now rewrite rev_involutive, lstrip_lstrip. Qed.

Lemma lstrip_snoc (s : str) (c : char) :
  isspace c = false ->
  exists s', lstrip (s ++ [c]) = s' ++ [c] /\ lstrip s' = s'.
Proof.
  intros Hc. induction s as [|x s IH]; simpl.
  - rewrite Hc. exists []. now split.
  - destruct (isspace x) eqn:Ex; [exact IH|].
    exists (x :: s). split; [reflexivity|]. simpl. now rewrite Ex.
Qed.

(** Stripping on the right leaves a string that is stripped on the left
    as it is. *)
Lemma lstrip_rstrip (s : str) : lstrip s = s -> lstrip (rstrip s) = rstrip s.
Proof.
  intros H. destruct s as [|c s]; [reflexivity|].
  assert (Hc : isspace c = false).
  { simpl in H. destruct (isspace c) eqn:E; [|reflexivity].
    exfalso. assert (L : length (lstrip s) <= length s).
    { clear. induction s as [|y s IH]; simpl; [lia|].
      destruct (isspace y); simpl; lia. }
    rewrite H in L. simpl in L. lia. }
  unfold rstrip. simpl rev.
  destruct (lstrip_snoc (rev s) c Hc) as [s' [E _]]. rewrite E.
  rewrite rev_app_distr. simpl. now rewrite Hc.
Qed.

Lemma strip_strip (s : str) : strip (strip s) = strip s.
Proof.
  unfold strip. rewrite (lstrip_rstrip (lstrip s)) by apply lstrip_lstrip.
  apply rstrip_rstrip.
Qed.

Open Scope N_scope.

Ltac range_facts :=
  repeat match goal with
    | H : _ && _ = true |- _ => apply andb_true_iff in H; destruct H
    | H : in_range _ _ _ = true |- _ => apply in_range_true in H
    | H : (_ =? _) = true |- _ => apply N.eqb_eq in H
    | H : negb _ = true |- _ => apply negb_true_iff in H
    | H : (_ =? _) = false |- _ => apply N.eqb_neq in H
    | H : in_range _ _ _ = false |- _ =>
        apply not_true_iff_false in H; rewrite in_range_true in H
    end.

(** A character that the class keeps is its own lowercase form. *)
Lemma lower_char_kept (c : char) : norm_keeps c = true -> lower_char c = [c].
Proof.
  intros H. apply norm_keeps_spec in H.
  assert (Hs : isspace c = true -> 9 <= c <= 13 \/ 28 <= c <= 32 \/ c = 133
               \/ c = 160 \/ c = 5760 \/ 8192 <= c <= 8202 \/ c = 8232
               \/ c = 8233 \/ c = 8239 \/ c = 8287 \/ c = 12288)
    by apply isspace_spec.
  unfold lower_char.
  repeat match goal with
         | |- context [if ?b then _ else _] => destruct b eqn:?
         end;
    range_facts; try reflexivity; exfalso;
    try (destruct H as [H|[H|[H|[H|[H|[H|[H|[H|[H|[H|H]]]]]]]]]];
         try apply Hs in H; lia).
  all: try (assert (E : c = 1169) by (destruct H as [H|[H|[H|[H|[H|[H|[H|[H|[H|[H|H]]]]]]]]]]; try apply Hs in H; lia);
            subst c; vm_compute in *; congruence).
Qed.

Close Scope N_scope.

Lemma lower_kept (s : str) :
  Forall (fun c => norm_keeps c = true) s -> lower s = s.
Proof.
  unfold lower. induction 1 as [|c s Hc Hs IH]; simpl; [reflexivity|].
  now rewrite (lower_char_kept c Hc), IH.
Qed.

Lemma filter_all {A : Type} (f : A -> bool) (l : list A) :
  Forall (fun x => f x = true) l -> filter f l = l.
Proof.
  induction 1 as [|x l Hx Hl IH]; simpl; [reflexivity|]. now rewrite Hx, IH.
Qed.

Lemma norm_kept (s : str) : Forall (fun c => norm_keeps c = true) (_norm s).
Proof.
  unfold _norm. apply Forall_forall. intros c Hc.
  now apply filter_In in Hc.
Qed.

Lemma norm_of_kept (t : str) :
  Forall (fun c => norm_keeps c = true) t -> _norm t = strip t.
Proof.
  intros H. unfold _norm. rewrite (lower_kept t H).
  apply filter_all. now apply Forall_strip.
Qed.

End NormaliserLaws.

(** X1.  A normal form holds only characters of the class.  Normalising it
    again strips it and does nothing else, so a third pass changes nothing;
    a normal form without whitespace at its ends is its own normal form,
    and resolves as the text it came from. *)
Theorem norm_twice_strips (s : str) :
  Forall (fun c => norm_keeps c = true) (_norm s)
  /\ _norm (_norm s) = strip (_norm s)
  /\ _norm (_norm (_norm s)) = _norm (_norm s)
  /\ (strip (_norm s) = _norm s ->
      forall ALIAS n, search_foods ALIAS (_norm s) n = search_foods ALIAS s n).
Proof.
  pose proof (norm_kept s) as Hk.
  assert (E : _norm (_norm s) = strip (_norm s)) by now apply norm_of_kept.
  split; [exact Hk|]. split; [exact E|]. split.
  - rewrite E. rewrite norm_of_kept by now apply Forall_strip.
    apply strip_strip.
  - intros Hs ALIAS n. unfold search_foods, search_foods_traced.
    rewrite E, Hs. reflexivity.
Qed.

(** Removing punctuation can uncover whitespace that no longer gets
    stripped. *)
Lemma norm_twice_strips_witness :
  _norm u{"* kale"} = u{" kale"}
  /\ _norm (_norm u{"* kale"}) = u{"kale"}
  /\ _norm (_norm (_norm u{"* kale"})) = u{"kale"}.
Proof.
  destruct (norm_twice_strips u{"* kale"}) as [_ [H2 [H3 _]]].
  split; [vm_compute; reflexivity|]. split.
  - rewrite H2. vm_compute. reflexivity.
  - rewrite H3, H2. vm_compute. reflexivity.
Defined.


(* ================================================================== *)
(** * More on the indexer *)

Section DictionaryKeys.
Context {V : Type}.
Implicit Types (d : dict V) (k : str) (v : V).

Lemma dict_set_keys k v d :
  dict_keys (dict_set k v d)
  = if dict_mem k d then dict_keys d else dict_keys d ++ [k].
Proof.
  unfold dict_mem. induction d as [|[k' v'] d IH]; simpl; [reflexivity|].
  destruct (str_eqb k' k) eqn:E; simpl; [reflexivity|].
  rewrite IH. now destruct (dict_get k d).
Qed.

Lemma dict_set_is_dict k v d : is_dict d -> is_dict (dict_set k v d).
Proof.
  unfold is_dict. intros H. rewrite dict_set_keys.
  destruct (dict_mem k d) eqn:E; [assumption|].
  apply NoDup_app; [assumption | repeat constructor; intros [] |].
  intros x Hx [<-|[]]. apply dict_keys_get in Hx. destruct Hx as [w Hw].
  unfold dict_mem in E. now rewrite Hw in E.
Qed.

Lemma dict_set_length k v d : length (dict_set k v d) <= S (length d).
Proof.
  induction d as [|[k' v'] d IH]; simpl; [lia|].
  destruct (str_eqb k' k); simpl; lia.
Qed.

(** In a dictionary, a binding that is listed is the one a lookup finds. *)
Lemma dict_In_get k v d : is_dict d -> In (k, v) d -> dict_get k d = Some v.
Proof.
  unfold is_dict. induction d as [|[k' v'] d IH]; simpl; [contradiction|].
  intros Hn [H|H].
  - injection H as -> ->. now rewrite str_eqb_refl.
  - inversion Hn as [|? ? Hk Hd]; subst.
    destruct (str_eqb k' k) eqn:E; [|now apply IH].
    apply str_eqb_eq in E. subst k'. exfalso. apply Hk.
    apply in_map_iff. now exists (k, v).
Qed.

End DictionaryKeys.

Lemma make_item_fields (key : str) (rec : json) (i : item) :
  make_item key rec = Ok i ->
  In (effect i) effects
  /\ strip (name_en i) = name_en i /\ strip (name_uk i) = name_uk i.
Proof.
  unfold make_item. intros H.
  bind_inv H. bind_inv H. bind_inv H. bind_inv H. injection H as <-.
  cbn [effect name_en name_uk]. split; [|split; apply strip_strip].
  match goal with
  | |- In (if ?b then _ else _) _ => destruct b eqn:Eo
  end.
  - change (one_of (lower (strip x2)) effects = true) in Eo.
    now apply one_of_In in Eo.
  - unfold effects. simpl. tauto.
Qed.

Lemma register_aliases_origin (canon : str) (ss : list json)
  (alias alias' : dict str) :
  register_aliases canon ss alias = Ok alias' ->
  forall k c, In (k, c) alias' ->
    (c = canon /\ k <> [] /\ exists s, In s ss /\ _norm_json s = Ok k)
    \/ In (k, c) alias.
Proof.
  revert alias. induction ss as [|s ss IH]; intros alias H k c Hin; simpl in H.
  - injection H as <-. now right.
  - bind_inv H. destruct (IH _ H k c Hin) as [[Hc [Hk [s' [Hs' Hn]]]]|Hr].
    + left. split; [assumption|]. split; [assumption|].
      exists s'. split; [now right | assumption].
    + destruct (is_empty x) eqn:Ex; [now right|].
      apply dict_set_In in Hr. destruct Hr as [Hr|Hr]; [|now right].
      injection Hr as -> ->. left. split; [reflexivity|]. split.
      * intros ->. discriminate.
      * exists s. split; [now left | assumption].
Qed.

Lemma register_aliases_is_dict (canon : str) (ss : list json)
  (alias alias' : dict str) :
  register_aliases canon ss alias = Ok alias' -> is_dict alias -> is_dict alias'.
Proof.
  revert alias. induction ss as [|s ss IH]; intros alias H Hd; simpl in H.
  - now injection H as <-.
  - bind_inv H. apply (IH _ H).
    destruct (is_empty x); [assumption | now apply dict_set_is_dict].
Qed.

(** What the indexer has added to its two maps after a run of records. *)
Lemma index_records_origin (raw : dict json) (st st' : indexes) :
  index_records raw st = Ok st' ->
  (forall key it, In (key, it) (fst st') ->
     In (key, it) (fst st)
     \/ (from_corpus raw it /\ key = lower (name_en it)))
  /\ (forall k c, In (k, c) (snd st') ->
        In (k, c) (snd st)
        \/ (k <> [] /\ exists key rec i,
              In (key, rec) raw /\ make_item key rec = Ok i
              /\ c = lower (name_en i) /\ registers key rec k))
  /\ (is_dict (fst st) -> is_dict (fst st'))
  /\ (is_dict (snd st) -> is_dict (snd st'))
  /\ length (fst st') <= length (fst st) + length raw.
Proof.
  revert st. induction raw as [|[key0 rec0] raw IH]; intros st H; simpl in H.
  - injection H as <-. repeat split; auto. lia.
  - bind_inv H. destruct (IH x H) as [IHf [IHa [IHd [IHe IHl]]]].
    destruct st as [foods alias]. apply index_record_inv in E.
    destruct E as [i [ss [alias' [Hi [Hss [Hr ->]]]]]]. simpl in *.
    split; [|split; [|split; [|split]]].
    + intros key it Hin. destruct (IHf key it Hin) as [Hold|[[k1 [r1 [H1 H2]]] Hk]].
      * apply dict_set_In in Hold. destruct Hold as [Hnew|Hold]; [|now left].
        injection Hnew as -> ->. right. split; [|reflexivity].
        exists key0, rec0. split; [now left | assumption].
      * right. split; [|assumption]. exists k1, r1. split; [now right | assumption].
    + intros k c Hin.
      destruct (IHa k c Hin) as [Hold|[Hk [k1 [r1 [i1 [H1 [H2 [H3 H4]]]]]]]].
      * destruct (register_aliases_origin _ _ _ _ Hr k c Hold)
          as [[-> [Hk [s [Hs Hn]]]]|Hold']; [|now left].
        right. split; [assumption|]. exists key0, rec0, i.
        split; [now left|]. split; [assumption|]. split; [reflexivity|].
        now exists i, ss, s.
      * right. split; [assumption|]. exists k1, r1, i1.
        split; [now right|]. tauto.
    + intros Hd. apply IHd. now apply dict_set_is_dict.
    + intros Hd. apply IHe. now apply (register_aliases_is_dict _ _ _ _ Hr).
    + pose proof (dict_set_length (lower (name_en i)) i foods). lia.
Qed.

Lemma build_indexes_origin (raw : dict json) (FOODS : dict item)
  (ALIAS : dict str) :
  build_indexes raw = Ok (FOODS, ALIAS) ->
  (forall key it, In (key, it) FOODS ->
     from_corpus raw it /\ key = lower (name_en it))
  /\ (forall k c, In (k, c) ALIAS ->
        k <> [] /\ exists key rec i,
              In (key, rec) raw /\ make_item key rec = Ok i
              /\ c = lower (name_en i) /\ registers key rec k)
  /\ is_dict FOODS /\ is_dict ALIAS /\ length FOODS <= length raw.
Proof.
  intros H. apply index_records_origin in H. simpl in H.
  destruct H as [Hf [Ha [Hd [He Hl]]]].
  split; [|split; [|split; [|split]]].
  - intros key it Hin. destruct (Hf key it Hin) as [[]|Hr]. exact Hr.
  - intros k c Hin. destruct (Ha k c Hin) as [[]|Hr]. exact Hr.
  - apply Hd. constructor.
  - apply He. constructor.
  - exact Hl.
Qed.










(* ================================================================== *)
(** * More on the resolver *)

Section Prefixes.
Context {A : Type}.
Implicit Types l t : list A.

Lemma prefix_refl l : prefix l l.
Proof. exists []. now rewrite app_nil_r. Qed.

Lemma prefix_trans l1 l2 l3 : prefix l1 l2 -> prefix l2 l3 -> prefix l1 l3.
Proof. intros [t ->] [t' ->]. exists (t ++ t'). now rewrite app_assoc. Qed.

Lemma prefix_firstn (a b : nat) l : a <= b -> prefix (firstn a l) (firstn b l).
Proof.
  revert b l. induction a as [|a IH]; intros b l H.
  - now exists (firstn b l).
  - destruct b as [|b]; [lia|]. destruct l as [|x l]; simpl.
    + now exists [].
    + destruct (IH b l) as [t E]; [lia|]. exists t. now rewrite E.
Qed.

Lemma prefix_firstn_app (a b : nat) l t :
  a <= b -> prefix (firstn a l) (firstn b (l ++ t)).
Proof.
  intros H. apply (prefix_trans _ (firstn b l)); [now apply prefix_firstn|].
  rewrite firstn_app. now eexists.
Qed.

Lemma NoDup_firstn (n : nat) l : NoDup l -> NoDup (firstn n l).
Proof.
  revert l. induction n as [|n IH]; intros l H; simpl; [constructor|].
  destruct l as [|x l]; [constructor|]. inversion H as [|? ? Hx Hl]; subst.
  constructor; [|now apply IH]. intros C. apply Hx. now apply firstn_incl in C.
Qed.

End Prefixes.

Lemma dedup_app (seen l1 l2 : list str) :
  exists t, dedup seen (l1 ++ l2) = dedup seen l1 ++ t.
Proof.
  revert seen. induction l1 as [|x l1 IH]; intros seen; simpl.
  - now eexists.
  - destruct (one_of x seen); [apply IH|].
    destruct (IH (x :: seen)) as [t E]. exists t. now rewrite E.
Qed.

Lemma dedup_NoDup (seen l : list str) : NoDup (dedup seen l).
Proof.
  revert seen. induction l as [|x l IH]; intros seen; simpl; [constructor|].
  destruct (one_of x seen); [apply IH|].
  constructor; [|apply IH]. rewrite dedup_In_iff. simpl. tauto.
Qed.

Lemma canon_keys_app (ALIAS : dict str) (l1 l2 : list str) :
  canon_keys ALIAS (l1 ++ l2) = canon_keys ALIAS l1 ++ canon_keys ALIAS l2.
Proof. unfold canon_keys. apply flat_map_app. Qed.

Lemma fuzzy_code_NoDup (ALIAS : dict str) (qn : str) (n : Z) :
  NoDup (fuzzy_code ALIAS qn n).
Proof. unfold fuzzy_code. apply NoDup_firstn, dedup_NoDup. Qed.

(** A larger limit only adds keys after those of a smaller one. *)
Lemma fuzzy_code_prefix (ALIAS : dict str) (qn : str) (n m : Z) :
  (n <= m)%Z -> prefix (fuzzy_code ALIAS qn n) (fuzzy_code ALIAS qn m).
Proof.
  intros H. unfold fuzzy_code.
  destruct (prefix_firstn (Z.to_nat (Z.max (n * 3) 60))
              (Z.to_nat (Z.max (m * 3) 60)) (ranked ALIAS qn)) as [t Et]; [lia|].
  rewrite Et, canon_keys_app.
  destruct (dedup_app []
              (canon_keys ALIAS
                 (firstn (Z.to_nat (Z.max (n * 3) 60)) (ranked ALIAS qn)))
              (canon_keys ALIAS t)) as [t' Et'].
  rewrite Et'. apply prefix_firstn_app. lia.
Qed.

(** The first key is the canonical key of the most similar alias, whatever
    the limit. *)
Lemma fuzzy_code_head (ALIAS : dict str) (qn : str) (n : Z) :
  hd_error (fuzzy_code ALIAS qn n)
  = hd_error (canon_keys ALIAS (firstn 1 (ranked ALIAS qn))).
Proof.
  unfold fuzzy_code.
  destruct (ranked ALIAS qn) as [|m rest] eqn:E.
  - now rewrite !firstn_nil.
  - destruct (dict_keys_get m ALIAS) as [c Hc].
    { apply (ranked_keys ALIAS qn). rewrite E. now left. }
    replace (Z.to_nat (Z.max (n * 3) 60))
      with (S (Z.to_nat (Z.max (n * 3) 60) - 1)) by lia.
    replace (Z.to_nat (Z.max n 1)) with (S (Z.to_nat (Z.max n 1) - 1)) by lia.
    rewrite !firstn_cons, !(canon_keys_cons ALIAS m c _ Hc). reflexivity.
Qed.

Lemma ranked_nil (ALIAS : dict str) (qn : str) :
  ranked ALIAS qn = [] <->
  forall k, In k (dict_keys ALIAS) -> (similarity qn k < cutoff)%Q.
Proof.
  unfold ranked. split.
  - intros H k Hk. apply Qnot_le_lt. intros C. apply Qle_bool_iff in C.
    assert (Hin : In k (map snd (difflib.sort_desc
                   (map (fun x => (similarity qn x, x))
                      (filter (fun x => Qle_bool cutoff (similarity qn x))
                         (dict_keys ALIAS)))))).
    { apply in_map_iff. exists (similarity qn k, k). split; [reflexivity|].
      apply sort_desc_In. apply in_map_iff. exists k. split; [reflexivity|].
      apply filter_In. now split. }
    rewrite H in Hin. contradiction.
  - intros H. rewrite filter_none; [reflexivity|].
    apply Forall_forall. intros k Hk. specialize (H k Hk).
    destruct (Qle_bool cutoff (similarity qn k)) eqn:E; [|reflexivity].
    apply Qle_bool_iff in E. exfalso. now apply (Qlt_not_le _ _ H).
Qed.

Lemma fuzzy_code_nil (ALIAS : dict str) (qn : str) (n : Z) :
  fuzzy_code ALIAS qn n = [] <-> ranked ALIAS qn = [].
Proof.
  split; intros H.
  - pose proof (fuzzy_code_head ALIAS qn n) as Hh. rewrite H in Hh.
    destruct (ranked ALIAS qn) as [|m rest] eqn:E; [reflexivity|].
    destruct (dict_keys_get m ALIAS) as [c Hc].
    { apply (ranked_keys ALIAS qn). rewrite E. now left. }
    simpl firstn in Hh. rewrite (canon_keys_cons ALIAS m c _ Hc) in Hh.
    discriminate.
  - unfold fuzzy_code. rewrite H, firstn_nil. simpl. apply firstn_nil.
Qed.

(** X5.  [search_foods] always returns a list, and no key occurs twice in
    it, whether it comes from the exact path or from the fuzzy one. *)
Theorem search_results_have_no_repeats (ALIAS : dict str) (q : str) (n : Z) :
  exists out, search_foods ALIAS q n = Ok out /\ NoDup out.
Proof.
  destruct (search_foods_total ALIAS q n) as [out [E H]].
  exists out. split; [assumption|].
  destruct H as [[_ ->]|[[_ [c [_ ->]]]|[_ [_ ->]]]].
  - constructor.
  - repeat constructor. intros [].
  - apply fuzzy_code_NoDup.
Qed.

(** X6.  Raising the limit never changes the keys already returned: the
    result for a smaller limit is an initial part of the result for a
    larger one, its first key is the same, and whether anything is found
    at all does not depend on the limit. *)
Theorem larger_limit_extends_result (ALIAS : dict str) (q : str) (n m : Z) :
  (n <= m)%Z ->
  exists out_n out_m,
    search_foods ALIAS q n = Ok out_n
    /\ search_foods ALIAS q m = Ok out_m
    /\ prefix out_n out_m
    /\ hd_error out_n = hd_error out_m
    /\ (out_n = [] <-> out_m = []).
Proof.
  intros Hnm.
  destruct (search_foods_total ALIAS q n) as [a [Ea Ha]].
  destruct (search_foods_total ALIAS q m) as [b [Eb Hb]].
  exists a, b. split; [assumption|]. split; [assumption|].
  destruct Ha as [[Hq ->]|[[Hq [c [Hc ->]]]|[Hq [Hm ->]]]];
    destruct Hb as [[Hq' ->]|[[Hq' [c' [Hc' ->]]]|[Hq' [Hm' ->]]]];
    try contradiction;
    try (unfold dict_mem in *;
         match goal with
         | H : dict_get _ _ = Some _, H' : context [dict_get _ _] |- _ =>
             rewrite H in H'; discriminate
         end).
  - split; [apply prefix_refl|]. split; [reflexivity | tauto].
  - rewrite Hc in Hc'. injection Hc' as <-.
    split; [apply prefix_refl|]. split; [reflexivity | tauto].
  - split; [now apply fuzzy_code_prefix|]. split.
    + now rewrite !fuzzy_code_head.
    + now rewrite !fuzzy_code_nil.
Qed.

Lemma larger_limit_extends_result_witness :
  exists out_1 out_7,
    search_foods crowded_alias u{"spinch"} 1 = Ok out_1
    /\ search_foods crowded_alias u{"spinch"} 7 = Ok out_7
    /\ prefix out_1 out_7
    /\ hd_error out_1 = hd_error out_7
    /\ (out_1 = [] <-> out_7 = []).
Proof.
  apply (larger_limit_extends_result crowded_alias u{"spinch"} 1 7). lia.
Defined.

(** X7.  A query finds nothing in exactly two cases: its normal form is
    empty, or its normal form is no alias and no alias string is at least
    0.45 similar to it.  The limit plays no part. *)
Theorem nothing_found_iff (ALIAS : dict str) (q : str) (n : Z) :
  search_foods ALIAS q n = Ok [] <->
  _norm q = []
  \/ (dict_mem (_norm q) ALIAS = false
      /\ forall k, In k (dict_keys ALIAS) ->
           (similarity (_norm q) k < cutoff)%Q).
Proof.
  destruct (search_foods_total ALIAS q n) as [out [E H]]. rewrite E.
  destruct H as [[Hq ->]|[[Hq [c [Hc ->]]]|[Hq [Hm ->]]]].
  - split; [now left | reflexivity].
  - split; [discriminate|]. intros [C|[C _]]; [contradiction|].
    unfold dict_mem in C. now rewrite Hc in C.
  - split.
    + intros H. injection H as H. right. split; [assumption|].
      now apply ranked_nil, (fuzzy_code_nil ALIAS (_norm q) n).
    + intros [C|[_ C]]; [contradiction|]. f_equal.
      now apply fuzzy_code_nil, ranked_nil.
Qed.


(* ================================================================== *)
(** * More on the pager *)

Section Paging.

Lemma firstn_then_more {A : Type} (a b : nat) (l : list A) :
  firstn a l ++ firstn b (skipn a l) = firstn (a + b) l.
Proof.
  revert l. induction a as [|a IH]; intros l; simpl; [reflexivity|].
  destruct l as [|x l]; simpl; [now rewrite firstn_nil|]. now rewrite IH.
Qed.

Lemma page_items_nonneg (pairs : list (str * str)) (page size : nat) :
  page_items (_alphabet_pages pairs (Z.of_nat page) (Z.of_nat size))
  = firstn size (skipn (page * size) pairs).
Proof.
  rewrite alphabet_pages_items, py_slice_nonneg by lia.
  do 2 f_equal. lia.
Qed.

Lemma slice_nonempty {A : Type} (l : list A) (start size : nat) :
  firstn size (skipn start l) <> [] <-> 0 < size /\ start < length l.
Proof.
  split.
  - intros H. split.
    + destruct size; [now contradiction H | lia].
    + destruct (Nat.lt_ge_cases start (length l)) as [Hlt|Hge]; [assumption|].
      rewrite skipn_all2, firstn_nil in H by assumption. now contradiction H.
  - intros [Hs Hl] C. apply (f_equal (@length A)) in C.
    rewrite length_firstn, length_skipn in C. simpl in C. lia.
Qed.

(** The rows of a page: one row per shown pair, then the navigation row. *)
Lemma alphabet_pages_rows (pairs : list (str * str)) (page per_page : Z)
  (row : list button) (b : button) :
  In row (_alphabet_pages pairs page per_page) -> In b row ->
  (exists p, b = mk_button (snd p) (CbShow (fst p)))
  \/ (b = mk_button u{"«"} (CbPage (page - 1)) /\ (0 < page)%Z)
  \/ (b = mk_button u{"»"} (CbPage (page + 1))
      /\ (page * per_page + per_page < Z.of_nat (length pairs))%Z).
Proof.
  unfold _alphabet_pages. intros Hrow Hb.
  assert (Hcases :
    In row (map (fun p => [mk_button (snd p) (CbShow (fst p))])
              (py_slice pairs (page * per_page) (page * per_page + per_page)))
    \/ row = (if (0 <? page)%Z then [mk_button u{"«"} (CbPage (page - 1))]
              else [])
             ++ (if (page * per_page + per_page <? Z.of_nat (length pairs))%Z
                 then [mk_button u{"»"} (CbPage (page + 1))] else [])).
  { destruct (is_empty _) in Hrow; [now left|].
    apply in_app_or in Hrow. destruct Hrow as [H|[H|[]]]; [now left|].
    right. now symmetry. }
  destruct Hcases as [H|H].
  - left. apply in_map_iff in H. destruct H as [p [<- _]].
    destruct Hb as [<-|[]]. now exists p.
  - right. subst row. apply in_app_or in Hb. destruct Hb as [Hb|Hb].
    + left. destruct (Z.ltb_spec 0 page); [|contradiction].
      destruct Hb as [<-|[]]. now split.
    + right. destruct (Z.ltb_spec (page * per_page + per_page)
                         (Z.of_nat (length pairs))); [|contradiction].
      destruct Hb as [<-|[]]. now split.
Qed.

End Paging.

(** X8.  The pages cut the list into consecutive pieces: the pairs shown
    on the first [n] pages, one page after the other, are the first
    [n * size] pairs of the list, so once [n * size] reaches the length of
    the list they are the whole list, each pair once and in order; and no
    page shows more than [size] pairs. *)
Theorem pages_partition_the_list
  (pairs : list (str * str)) (size n : nat) :
  let page p := _alphabet_pages pairs (Z.of_nat p) (Z.of_nat size) in
  concat (map (fun p => page_items (page p)) (seq 0 n))
    = firstn (n * size) pairs
  /\ (length pairs <= n * size ->
      concat (map (fun p => page_items (page p)) (seq 0 n)) = pairs)
  /\ forall p, length (page_items (page p)) <= size.
Proof.
  intros page. subst page. cbv beta.
  assert (E : forall k,
    concat (map (fun p => page_items
                   (_alphabet_pages pairs (Z.of_nat p) (Z.of_nat size)))
              (seq 0 k)) = firstn (k * size) pairs).
  { induction k as [|k IH]; [reflexivity|].
    rewrite seq_S, map_app, concat_app, IH. simpl.
    rewrite app_nil_r, page_items_nonneg, firstn_then_more.
    f_equal. lia. }
  split; [apply E|]. split.
  - intros H. rewrite E. now apply firstn_all2.
  - intros p. rewrite page_items_nonneg. rewrite length_firstn. lia.
Qed.

(** X9.  Paging never leaves the list.  On the first page, or on any page
    that starts inside the list, every navigation button leads to the page
    just before or just after, and that page shows at least one pair; the
    button to the next page is there exactly when the next page shows
    something. *)
Theorem navigation_stays_inside_the_list
  (pairs : list (str * str)) (size : nat) (page : Z) :
  0 < size ->
  (page = 0 \/ 0 < page /\ page * Z.of_nat size < Z.of_nat (length pairs))%Z ->
  let kb := _alphabet_pages pairs page (Z.of_nat size) in
  (forall row b q, In row kb -> In b row -> callback_data b = CbPage q ->
     (q = page - 1 \/ q = page + 1)%Z /\ (0 <= q)%Z
     /\ page_items (_alphabet_pages pairs q (Z.of_nat size)) <> [])
  /\ (has_next kb = true <->
      page_items (_alphabet_pages pairs (page + 1) (Z.of_nat size)) <> []).
Proof.
  intros Hsize Hpage kb. subst kb.
  assert (Hshow : forall q : nat,
    page_items (_alphabet_pages pairs (Z.of_nat q) (Z.of_nat size)) <> []
    <-> q * size < length pairs).
  { intros q. rewrite page_items_nonneg, slice_nonempty. tauto. }
  split.
  - intros row b q Hrow Hb Hq.
    destruct (alphabet_pages_rows _ _ _ _ _ Hrow Hb)
      as [[p ->]|[[-> Hp]|[-> Hn]]]; simpl in Hq; [discriminate| |];
      injection Hq as <-.
    + split; [now left|]. split; [lia|].
      replace (page - 1)%Z with (Z.of_nat (Z.to_nat (page - 1))) by lia.
      apply Hshow. nia.
    + split; [now right|]. split; [lia|].
      replace (page + 1)%Z with (Z.of_nat (Z.to_nat (page + 1))) by lia.
      apply Hshow. nia.
  - rewrite alphabet_pages_next, Z.ltb_lt.
    replace (page + 1)%Z with (Z.of_nat (Z.to_nat (page + 1))) at 2 by lia.
    rewrite Hshow. nia.
Qed.

Lemma navigation_stays_inside_the_list_witness :
  let kb := _alphabet_pages three_fruits 1 (Z.of_nat 2) in
  (forall row b q, In row kb -> In b row -> callback_data b = CbPage q ->
     (q = 1 - 1 \/ q = 1 + 1)%Z /\ (0 <= q)%Z
     /\ page_items (_alphabet_pages three_fruits q (Z.of_nat 2)) <> [])
  /\ (has_next kb = true <->
      page_items (_alphabet_pages three_fruits (1 + 1) (Z.of_nat 2)) <> []).
Proof.
  apply (navigation_stays_inside_the_list three_fruits 2 1).
  - lia.
  - right. simpl. lia.
Defined.


(* ================================================================== *)
(** * Listings *)

Section StringOrder.

Lemma str_compare_refl (a : str) : str_compare a a = Eq.
Proof.
  induction a as [|x a IH]; simpl; [reflexivity|]. now rewrite N.compare_refl.
Qed.

Lemma str_compare_antisym (a b : str) :
  str_compare b a = CompOpp (str_compare a b).
Proof.
  revert b. induction a as [|x a IH]; intros [|y b]; simpl; try reflexivity.
  rewrite (N.compare_antisym x y).
  destruct (x ?= y)%N; simpl; [apply IH | reflexivity | reflexivity].
Qed.

Lemma str_compare_le_trans (a b c : str) :
  str_compare a b <> Gt -> str_compare b c <> Gt -> str_compare a c <> Gt.
Proof.
  revert b c. induction a as [|x a IH]; intros [|y b] [|z c]; simpl;
    try congruence.
  destruct (N.compare_spec x y) as [Hxy|Hxy|Hxy];
    destruct (N.compare_spec y z) as [Hyz|Hyz|Hyz];
    destruct (N.compare_spec x z) as [Hxz|Hxz|Hxz];
    try congruence; try lia.
  apply IH.
Qed.

End StringOrder.

Section Sorting.
Context {A : Type}.
Variable cmp : A -> A -> comparison.

Lemma insert_by_perm (x : A) (l : list A) :
  Permutation (insert_by cmp x l) (x :: l).
Proof.
  induction l as [|y l IH]; simpl; [apply Permutation_refl|].
  destruct (cmp x y); try apply Permutation_refl.
  eapply Permutation_trans; [apply perm_skip, IH | apply perm_swap].
Qed.

Lemma sorted_by_perm (l : list A) : Permutation (sorted_by cmp l) l.
Proof.
  induction l as [|x l IH]; simpl; [constructor|].
  eapply Permutation_trans; [apply insert_by_perm | now apply perm_skip].
Qed.

Lemma sorted_by_In (l : list A) (x : A) : In x (sorted_by cmp l) <-> In x l.
Proof.
  split; apply Permutation_in;
    [apply sorted_by_perm | apply Permutation_sym, sorted_by_perm].
Qed.

Hypothesis cmp_antisym : forall x y, cmp x y = Gt -> cmp y x <> Gt.
Hypothesis cmp_trans :
  forall x y z, cmp x y <> Gt -> cmp y z <> Gt -> cmp x z <> Gt.

Lemma insert_by_sorted (x : A) (l : list A) :
  StronglySorted (fun a b => cmp a b <> Gt) l ->
  StronglySorted (fun a b => cmp a b <> Gt) (insert_by cmp x l).
Proof.
  induction 1 as [|y l Hl IH Hy]; simpl.
  - constructor; constructor.
  - destruct (cmp x y) eqn:E.
    + constructor; [now constructor|]. constructor; [congruence|].
      eapply Forall_impl; [|exact Hy]. intros z Hz.
      apply (cmp_trans x y z); congruence.
    + constructor; [now constructor|]. constructor; [congruence|].
      eapply Forall_impl; [|exact Hy]. intros z Hz.
      apply (cmp_trans x y z); congruence.
    + constructor; [assumption|].
      apply Forall_forall. intros z Hz.
      apply (Permutation_in _ (insert_by_perm x l)) in Hz.
      destruct Hz as [<-|Hz]; [now apply cmp_antisym|].
      rewrite Forall_forall in Hy. now apply Hy.
Qed.

Lemma sorted_by_sorted (l : list A) :
  StronglySorted (fun a b => cmp a b <> Gt) (sorted_by cmp l).
Proof.
  induction l as [|x l IH]; simpl; [constructor | now apply insert_by_sorted].
Qed.

End Sorting.



Lemma str_compare_antisym_Gt (a b : str) :
  str_compare a b = Gt -> str_compare b a <> Gt.
Proof. intros H. rewrite str_compare_antisym, H. discriminate. Qed.

Section Listing.
Variable FOODS : dict item.
Variable lang : str.
Variable eff : option str.

(** The pairs of a listing before they are sorted. *)
Lemma listing_items_In (key nm : str) :
  In (key, nm)
    (flat_map (fun kv => if filtered_out eff (snd kv) then []
                         else [(fst kv, list_name lang (snd kv))]) FOODS)
  <-> exists it, In (key, it) FOODS /\ filtered_out eff it = false
                 /\ nm = list_name lang it.
Proof.
  rewrite in_flat_map. split.
  - intros [[k it] [Hin H]]. simpl in H.
    destruct (filtered_out eff it) eqn:E; [contradiction|].
    destruct H as [H|[]]. injection H as <- <-. now exists it.
  - intros [it [Hin [Hf ->]]]. exists (key, it). split; [assumption|].
    simpl. rewrite Hf. now left.
Qed.

Lemma names_sorted_In (key nm : str) :
  In (key, nm) (_names_sorted FOODS lang eff)
  <-> exists it, In (key, it) FOODS /\ filtered_out eff it = false
                 /\ nm = list_name lang it.
Proof. unfold _names_sorted. rewrite sorted_by_In. apply listing_items_In. Qed.



Lemma listed_names_sorted :
  listed (cmd_list_with FOODS lang eff) = _names_sorted FOODS lang eff.
Proof.
  unfold cmd_list_with. now destruct (_names_sorted FOODS lang eff).
Qed.

End Listing.


Lemma effects_lower (e : str) : In e effects -> lower e = e.
Proof.
  intros [<-|[<-|[<-|[]]]]; vm_compute; reflexivity.
Qed.


(** X11.  On the foods map the indexer builds, the listing of the foods
    that increase the effect holds exactly the foods whose effect is
    [increase], the other listing exactly those whose effect is
    [decrease], and the full listing every food; so no food is in both
    filtered listings, and a neutral food is in neither. *)
Theorem effect_listings_split_the_foods
  (raw : dict json) (FOODS : dict item) (ALIAS : dict str) (lang : str) :
  build_indexes raw = Ok (FOODS, ALIAS) ->
  forall key nm,
    (In (key, nm) (listed (cmd_list_increase FOODS lang)) <->
     exists it, dict_get key FOODS = Some it /\ effect it = u{"increase"}
                /\ nm = list_name lang it)
    /\ (In (key, nm) (listed (cmd_list_decrease FOODS lang)) <->
        exists it, dict_get key FOODS = Some it /\ effect it = u{"decrease"}
                   /\ nm = list_name lang it)
    /\ (In (key, nm) (listed (cmd_list FOODS lang)) <->
        exists it, dict_get key FOODS = Some it /\ nm = list_name lang it)
    /\ ~ (In (key, nm) (listed (cmd_list_increase FOODS lang))
          /\ In (key, nm) (listed (cmd_list_decrease FOODS lang))).
Proof.
  intros Hb key nm.
  destruct (build_indexes_origin raw FOODS ALIAS Hb) as [Hf [_ [Hd _]]].
  assert (Hfilter : forall e, In e effects ->
    (In (key, nm) (listed (cmd_list_with FOODS lang (Some e))) <->
     exists it, dict_get key FOODS = Some it /\ effect it = e
                /\ nm = list_name lang it)).
  { intros e He. rewrite listed_names_sorted, names_sorted_In. split.
    - intros [it [Hin [Hfo ->]]]. exists it.
      split; [now apply dict_In_get|]. split; [|reflexivity].
      destruct (Hf key it Hin) as [[k0 [rec [_ Hm]]] _].
      apply make_item_fields in Hm. destruct Hm as [Heff _].
      simpl in Hfo. rewrite (effects_lower _ Heff) in Hfo.
      apply andb_false_iff in Hfo. destruct Hfo as [Hfo|Hfo].
      + destruct He as [<-|[<-|[<-|[]]]]; discriminate.
      + apply negb_false_iff in Hfo. now apply str_eqb_eq.
    - intros [it [Hg [He' ->]]]. exists it.
      split; [now apply dict_get_In|]. split; [|reflexivity].
      simpl. apply andb_false_iff. right. apply negb_false_iff.
      apply str_eqb_eq. rewrite <- He'. apply effects_lower.
      now rewrite He'. }
  assert (Hinc := Hfilter u{"increase"}).
  assert (Hdec := Hfilter u{"decrease"}).
  unfold cmd_list_increase, cmd_list_decrease, cmd_list.
  split; [apply Hinc; simpl; tauto|].
  split; [apply Hdec; simpl; tauto|]. split.
  - rewrite listed_names_sorted, names_sorted_In. split.
    + intros [it [Hin [_ ->]]]. exists it. split; [now apply dict_In_get|].
      reflexivity.
    + intros [it [Hg ->]]. exists it. split; [now apply dict_get_In|].
      now split.
  - intros [H1 H2]. apply Hinc in H1; [|simpl; tauto].
    apply Hdec in H2; [|simpl; tauto].
    destruct H1 as [it [Hg [He _]]]. destruct H2 as [it' [Hg' [He' _]]].
    rewrite Hg in Hg'. injection Hg' as <-. rewrite He in He'. discriminate.
Qed.

Lemma effect_listings_split_the_foods_witness :
  (In (u{"kale"}, u{"KALE"})
      (listed (cmd_list_increase (fst twin_indexes) u{"en"})) <->
   exists it, dict_get u{"kale"} (fst twin_indexes) = Some it
              /\ effect it = u{"increase"}
              /\ u{"KALE"} = list_name u{"en"} it)
  /\ (In (u{"kale"}, u{"KALE"})
         (listed (cmd_list_decrease (fst twin_indexes) u{"en"})) <->
      exists it, dict_get u{"kale"} (fst twin_indexes) = Some it
                 /\ effect it = u{"decrease"}
                 /\ u{"KALE"} = list_name u{"en"} it)
  /\ (In (u{"kale"}, u{"KALE"})
         (listed (cmd_list (fst twin_indexes) u{"en"})) <->
      exists it, dict_get u{"kale"} (fst twin_indexes) = Some it
                 /\ u{"KALE"} = list_name u{"en"} it)
  /\ ~ (In (u{"kale"}, u{"KALE"})
          (listed (cmd_list_increase (fst twin_indexes) u{"en"}))
        /\ In (u{"kale"}, u{"KALE"})
             (listed (cmd_list_decrease (fst twin_indexes) u{"en"}))).
Proof.
  apply (effect_listings_split_the_foods twin_corpus
           (fst twin_indexes) (snd twin_indexes) u{"en"}).
  vm_compute. reflexivity.
Defined.




(* ================================================================== *)
(** * Language preferences *)

Section UserKeys.



End UserKeys.









(* ================================================================== *)
(** * Menu and text dispatch *)

Lemma search_foods_cases (ALIAS : dict str) (q : str) :
  (_norm q = [] /\ forall n, search_foods ALIAS q n = Ok [])
  \/ (exists c, dict_get (_norm q) ALIAS = Some c
                /\ forall n, search_foods ALIAS q n = Ok [c])
  \/ (_norm q <> [] /\ dict_mem (_norm q) ALIAS = false
      /\ forall n, search_foods ALIAS q n = Ok (fuzzy_code ALIAS (_norm q) n)).
Proof.
  unfold search_foods. destruct (_norm q) as [|x qn] eqn:E.
  - left. split; [reflexivity|]. intros n.
    now rewrite search_foods_no_query.
  - assert (Hq : _norm q <> []) by (rewrite E; discriminate).
    rewrite <- E in *. right.
    destruct (dict_get (_norm q) ALIAS) as [c|] eqn:Hc.
    + left. exists c. split; [reflexivity|]. intros n.
      now rewrite (search_foods_exact ALIAS q n c Hq Hc).
    + right. assert (Hm : dict_mem (_norm q) ALIAS = false)
        by (unfold dict_mem; now rewrite Hc).
      split; [assumption|]. split; [assumption|]. intros n.
      now rewrite (search_foods_fuzzy ALIAS q n Hq Hm).
Qed.


Section Dispatch.
Variable title : str -> str.
Variables (FOODS : dict item) (ALIAS : dict str).



Lemma on_text_awaiting (lang text : str) :
  str_eqb (strip text) u{"🇺🇦 / 🇬🇧"} = false ->
  on_text title FOODS ALIAS lang true text
  = let* r := cmd_food title FOODS ALIAS lang [strip text] in
    Ok (TAnswer r, false).
Proof. intros H. unfold on_text. cbv zeta. now rewrite H. Qed.

End Dispatch.

Ltac run_dispatch :=
  unfold on_text; cbv zeta;
  repeat match goal with
    | |- context [strip ?s] =>
        let v := eval vm_compute in (strip s) in
        progress change (strip s) with v
    end;
  repeat match goal with
    | |- context [str_eqb ?a ?b] =>
        let v := eval vm_compute in (str_eqb a b) in
        match v with
        | true => change (str_eqb a b) with true
        | false => change (str_eqb a b) with false
        end
    end;
  cbv iota.

(** X15.  The keyboard [main_kb] shows for a language and the texts
    [on_text] recognises for that language are the same, whatever the
    language tag is: the search button makes the bot wait for a query, the
    three list buttons run the three listings, and the flag button opens
    the language menu and leaves the waiting state as it is.  While a
    query is awaited, the search and list buttons are not recognised:
    their caption is looked up as a food name. *)
Theorem menu_buttons_run_their_commands
  (title : str -> str) (FOODS : dict item) (ALIAS : dict str) (lang : str) :
  exists search list inc dec flag,
    main_kb lang = [[search; list]; [inc; dec]; [flag]]
    /\ on_text title FOODS ALIAS lang false search = Ok (TAskQuery, true)
    /\ on_text title FOODS ALIAS lang false list
       = Ok (TList (cmd_list FOODS lang), false)
    /\ on_text title FOODS ALIAS lang false inc
       = Ok (TList (cmd_list_increase FOODS lang), false)
    /\ on_text title FOODS ALIAS lang false dec
       = Ok (TList (cmd_list_decrease FOODS lang), false)
    /\ (forall awaiting,
          on_text title FOODS ALIAS lang awaiting flag
          = Ok (TLangMenu, awaiting))
    /\ (forall b, In b [search; list; inc; dec] ->
          on_text title FOODS ALIAS lang true b
          = let* r := cmd_food title FOODS ALIAS lang [b] in
            Ok (TAnswer r, false)).
Proof.
  unfold main_kb. destruct (str_eqb lang u{"en"}) eqn:E;
    do 5 eexists; (split; [reflexivity|]);
    repeat split;
    try (run_dispatch; rewrite ?E; reflexivity);
    try (intros awaiting; run_dispatch; reflexivity).
  all: intros b Hb; simpl in Hb;
    destruct Hb as [<-|[<-|[<-|[<-|[]]]]];
    rewrite on_text_awaiting by (vm_compute; reflexivity);
    match goal with
    | |- context [strip ?s] =>
        let v := eval vm_compute in (strip s) in change (strip s) with v
    end; reflexivity.
Qed.



(* ================================================================== *)
(** * When [cmd_food] raises *)

Section Joining.







End Joining.

Section Failures.
Variable title : str -> str.
Variables (FOODS : dict item) (ALIAS : dict str).



End Failures.

Lemma found_keys_are_foods (raw : dict json) (FOODS : dict item)
  (ALIAS : dict str) (q : str) (n : Z) (out : list str) :
  build_indexes raw = Ok (FOODS, ALIAS) ->
  search_foods ALIAS q n = Ok out ->
  forall k, In k out -> exists it, dict_get k FOODS = Some it.
Proof.
  intros Hb Hs k Hk.
  pose proof (build_indexes_sound raw (FOODS, ALIAS) Hb) as Hsound.
  destruct (search_foods_values ALIAS _ _ _ k Hs Hk) as [m Hm].
  destruct (Hsound m k Hm) as [Hmem _]. simpl in Hmem.
  now apply dict_mem_true in Hmem.
Qed.



(* ================================================================== *)
(** * Inline queries *)

Lemma StronglySorted_firstn {A : Type} (R : A -> A -> Prop) (n : nat)
  (l : list A) :
  StronglySorted R l -> StronglySorted R (firstn n l).
Proof.
  revert l. induction n as [|n IH]; intros l H; simpl; [constructor|].
  destruct l as [|x l]; [constructor|].
  inversion H as [|? ? Hl Hx]; subst. constructor; [now apply IH|].
  apply Forall_forall. intros y Hy. apply firstn_incl in Hy.
  rewrite Forall_forall in Hx. now apply Hx.
Qed.

Lemma search_foods_length (ALIAS : dict str) (q : str) (n : Z)
  (out : list str) :
  search_foods ALIAS q n = Ok out -> (Z.of_nat (length out) <= Z.max n 1)%Z.
Proof.
  destruct (search_foods_cases ALIAS q) as [[_ H]|[[c [_ H]]|[_ [_ H]]]];
    rewrite H; intros E; injection E as <-; simpl; try lia.
  apply fuzzy_code_length.
Qed.

Lemma search_foods_NoDup (ALIAS : dict str) (q : str) (n : Z)
  (out : list str) :
  search_foods ALIAS q n = Ok out -> NoDup out.
Proof.
  destruct (search_foods_cases ALIAS q) as [[_ H]|[[c [_ H]]|[_ [_ H]]]];
    rewrite H; intros E; injection E as <-.
  - constructor.
  - repeat constructor. intros [].
  - apply fuzzy_code_NoDup.
Qed.

(** X18.  An inline query is answered with at most 25 keys, none twice,
    and each of them a key of the foods map, so the lookup of the record
    that [inline_result] starts with succeeds for every one of them.  For a query that is blank the keys are the first
    ten keys of the foods map in ascending order of their code points;
    any other query is resolved with limit 25. *)
Theorem inline_query_keys_are_foods
  (raw : dict json) (FOODS : dict item) (ALIAS : dict str) (query : str) :
  build_indexes raw = Ok (FOODS, ALIAS) ->
  exists keys,
    on_inline_query FOODS ALIAS query = Ok keys
    /\ length keys <= 25
    /\ NoDup keys
    /\ (forall k, In k keys -> exists it, dict_get k FOODS = Some it)
    /\ (strip query = [] ->
        length keys = Nat.min 10 (length FOODS)
        /\ StronglySorted (fun a b => str_compare a b <> Gt) keys
        /\ forall k, In k (dict_keys FOODS) -> ~ In k keys ->
             forall k', In k' keys -> str_compare k' k <> Gt)
    /\ (strip query <> [] -> search_foods ALIAS (strip query) 25 = Ok keys).
Proof.
  intros Hb. unfold on_inline_query.
  destruct (build_indexes_origin raw FOODS ALIAS Hb) as [_ [_ [Hd _]]].
  destruct (strip query) as [|c q] eqn:Eq; simpl is_empty; cbv iota.
  - eexists. split; [reflexivity|].
    pose proof (sorted_by_perm str_compare (dict_keys FOODS)) as Hp.
    pose proof (sorted_by_sorted str_compare str_compare_antisym_Gt
                  str_compare_le_trans (dict_keys FOODS)) as Hs.
    split; [rewrite length_firstn; lia|]. split.
    { apply NoDup_firstn. apply (Permutation_NoDup (Permutation_sym Hp) Hd). }
    split.
    { intros k Hk. apply firstn_incl in Hk.
      apply (Permutation_in _ Hp) in Hk. now apply dict_keys_get. }
    split; [|intros C; now contradiction C].
    intros _. split.
    { rewrite length_firstn, (Permutation_length Hp).
      unfold dict_keys. now rewrite length_map. }
    split; [now apply StronglySorted_firstn|].
    intros k Hk Hout k' Hk'.
    apply (Permutation_in _ (Permutation_sym Hp)) in Hk.
    rewrite <- (firstn_skipn 10 (sorted_by str_compare (dict_keys FOODS))) in Hk, Hs.
    apply in_app_or in Hk. destruct Hk as [Hk|Hk]; [contradiction|].
    revert Hs Hk Hk'. generalize (firstn 10 (sorted_by str_compare (dict_keys FOODS))).
    generalize (skipn 10 (sorted_by str_compare (dict_keys FOODS))).
    intros tl hd Hs Hk Hk'. induction hd as [|x hd IH]; [contradiction|].
    simpl in Hs. inversion Hs as [|? ? Hl Hx]; subst.
    destruct Hk' as [<-|Hk']; [|now apply IH].
    rewrite Forall_forall in Hx. apply Hx. apply in_or_app. now right.
  - destruct (search_foods_total ALIAS (c :: q) 25) as [keys [E _]].
    exists keys. split; [assumption|].
    split.
    { pose proof (search_foods_length ALIAS _ _ _ E). lia. }
    split; [now apply (search_foods_NoDup ALIAS (c :: q) 25)|].
    split; [now apply (found_keys_are_foods raw FOODS ALIAS (c :: q) 25)|].
    split; [discriminate|]. intros _. assumption.
Qed.

Lemma inline_query_keys_are_foods_witness :
  exists keys,
    on_inline_query (fst twin_indexes) (snd twin_indexes) u{" "} = Ok keys
    /\ length keys <= 25
    /\ NoDup keys
    /\ (forall k, In k keys ->
          exists it, dict_get k (fst twin_indexes) = Some it)
    /\ (strip u{" "} = [] ->
        length keys = Nat.min 10 (length (fst twin_indexes))
        /\ StronglySorted (fun a b => str_compare a b <> Gt) keys
        /\ forall k, In k (dict_keys (fst twin_indexes)) -> ~ In k keys ->
             forall k', In k' keys -> str_compare k' k <> Gt)
    /\ (strip u{" "} <> [] ->
        search_foods (snd twin_indexes) (strip u{" "}) 25 = Ok keys).
Proof.
  apply (inline_query_keys_are_foods twin_corpus
           (fst twin_indexes) (snd twin_indexes) u{" "}).
  vm_compute. reflexivity.
Defined.


(* ================================================================== *)
(** * More on the loaders *)

Lemma dedup_seen_ext (s1 s2 l : list str) :
  (forall x, In x s1 <-> In x s2) -> dedup s1 l = dedup s2 l.
Proof.
  revert s1 s2. induction l as [|y l IH]; intros s1 s2 H; simpl; [reflexivity|].
  assert (E : one_of y s1 = one_of y s2).
  { destruct (one_of y s1) eqn:E1; destruct (one_of y s2) eqn:E2;
      try reflexivity.
    - apply one_of_In, H, one_of_In in E1. congruence.
    - apply one_of_In, H, one_of_In in E2. congruence. }
  rewrite E. destruct (one_of y s2); [now apply IH|].
  f_equal. apply IH. intros x. simpl. rewrite H. tauto.
Qed.

Lemma dict_update_keys {V : Type} (base user : dict V) :
  dict_keys (dict_update base user)
  = dict_keys base ++ dedup (dict_keys base) (dict_keys user).
Proof.
  unfold dict_update. revert base.
  induction user as [|[k v] user IH]; intros base; simpl.
  - now rewrite app_nil_r.
  - rewrite IH, dict_set_keys.
    destruct (dict_mem k base) eqn:E.
    + assert (Ho : one_of k (dict_keys base) = true).
      { apply one_of_In. apply dict_mem_true in E. destruct E as [w Hw].
        now apply (dict_get_keys k w). }
      now rewrite Ho.
    + assert (Ho : one_of k (dict_keys base) = false).
      { destruct (one_of k (dict_keys base)) eqn:Ho; [|reflexivity].
        apply one_of_In, dict_keys_get in Ho. destruct Ho as [w Hw].
        unfold dict_mem in E. now rewrite Hw in E. }
      rewrite Ho, <- app_assoc. simpl. do 2 f_equal.
      apply dedup_seen_ext. intros x. rewrite in_app_iff. simpl. tauto.
Qed.

Lemma dedup_avoids_seen (seen l : list str) (x : str) :
  In x (dedup seen l) -> ~ In x seen.
Proof. rewrite dedup_In_iff. tauto. Qed.

Lemma as_mapping_Raise (v : json) (e : exn) :
  as_mapping v = Raise e -> e = TypeError /\ forall d, v <> JObj d.
Proof.
  destruct v; simpl; try discriminate;
    intros H; injection H as <-; (split; [reflexivity | discriminate]).
Qed.

Lemma load_json_dict_value (fs : filesystem) (p : path) (v : json) (lg : log) :
  _load_json_dict fs p = (v, lg) -> fs p = Holds v \/ v = JObj [].
Proof.
  unfold _load_json_dict, path_exists.
  destruct (fs p) as [| | |w]; simpl; intros H; injection H as <- <-; auto.
Qed.

(** X19.  The corpus loader raises in one case only: a corpus file that
    exists and holds JSON which is not an object (a list, a string, a
    number, [null]).  Then the merge raises [TypeError] and so does the
    indexer; a missing, unreadable or corrupt file never makes it raise. *)
Theorem loader_raises_only_on_non_objects (fs : filesystem) :
  (forall e lg, load_foods_merged fs = (Raise e, lg) ->
     e = TypeError
     /\ exists v, (fs FOODS_PATH = Holds v \/ fs USER_FOODS_PATH = Holds v)
                  /\ forall d, v <> JObj d)
  /\ (forall v, fs FOODS_PATH = Holds v \/ fs USER_FOODS_PATH = Holds v ->
        (forall d, v <> JObj d) ->
        exists lg, load_foods_merged fs = (Raise TypeError, lg)
                   /\ rebuild_indexes fs = (Raise TypeError, lg)).
Proof.
  split.
  - intros e lg. unfold load_foods_merged.
    destruct (_load_json_dict fs FOODS_PATH) as [base l1] eqn:E1.
    destruct (if path_exists fs USER_FOODS_PATH
              then _load_json_dict fs USER_FOODS_PATH
              else (JObj [], [])) as [user l2] eqn:E2.
    assert (Hu : fs USER_FOODS_PATH = Holds user \/ user = JObj []).
    { destruct (path_exists fs USER_FOODS_PATH).
      - now apply load_json_dict_value in E2.
      - injection E2 as <- _. now right. }
    apply load_json_dict_value in E1.
    destruct (as_mapping base) as [b|e1] eqn:Eb;
      destruct (as_mapping user) as [u0|e2] eqn:Eu;
      intros H; try discriminate; injection H as <- _.
    + apply as_mapping_Raise in Eu. destruct Eu as [-> Hn].
      split; [reflexivity|]. exists user. split; [|assumption].
      destruct Hu as [Hu| ->]; [now right | now contradiction (Hn [])].
    + apply as_mapping_Raise in Eb. destruct Eb as [-> Hn].
      split; [reflexivity|]. exists base. split; [|assumption].
      destruct E1 as [E1| ->]; [now left | now contradiction (Hn [])].
    + apply as_mapping_Raise in Eb. destruct Eb as [-> Hn].
      split; [reflexivity|]. exists base. split; [|assumption].
      destruct E1 as [E1| ->]; [now left | now contradiction (Hn [])].
  - intros v Hv Hn.
    assert (Hm : as_mapping v = Raise TypeError).
    { destruct v; try reflexivity. now contradiction (Hn d). }
    assert (E : exists lg, load_foods_merged fs = (Raise TypeError, lg)).
    { unfold load_foods_merged, _load_json_dict, path_exists.
      destruct Hv as [Hv|Hv]; rewrite Hv; simpl.
      - rewrite Hm.
        destruct (match fs USER_FOODS_PATH with Missing => false | _ => true end);
          [destruct (fs USER_FOODS_PATH)|]; simpl; now eexists.
      - rewrite Hm.
        destruct (fs FOODS_PATH) as [| | |w]; simpl;
          try (now eexists).
        destruct (as_mapping w) as [b|e] eqn:Ew; [now eexists|].
        apply as_mapping_Raise in Ew. destruct Ew as [-> _]. now eexists. }
    destruct E as [lg E]. exists lg. split; [assumption|].
    unfold rebuild_indexes. now rewrite E.
Qed.

(** X20.  When both corpus files hold an object, the merged corpus keeps
    the keys of the base corpus in their order and appends the keys that
    only the override has, in the override's order; no key occurs twice;
    and the merged corpus is empty, with the warning logged, exactly when
    both corpora are empty. *)
Theorem merged_corpus_keeps_base_order
  (fs : filesystem) (base user : dict json) :
  fs FOODS_PATH = Holds (JObj base) ->
  fs USER_FOODS_PATH = Holds (JObj user) ->
  is_dict base ->
  exists merged lg,
    load_foods_merged fs = (Ok merged, lg)
    /\ dict_keys merged
       = dict_keys base ++ dedup (dict_keys base) (dict_keys user)
    /\ is_dict merged
    /\ (merged = [] <-> base = [] /\ user = [])
    /\ (In LogWarningEmptyCorpus lg <-> base = [] /\ user = []).
Proof.
  intros Hb Hu Hd. eexists. eexists.
  split; [apply load_foods_merged_objects; eassumption|].
  pose proof (dict_update_keys base user) as Hk.
  assert (Hnil : dict_update base user = [] <-> base = [] /\ user = []).
  { split.
    - intros H. rewrite H in Hk. simpl in Hk. symmetry in Hk.
      apply app_eq_nil in Hk. destruct Hk as [H1 H2].
      assert (B : base = []) by (destruct base; [reflexivity | discriminate]).
      split; [assumption|]. subst base. destruct user as [|[k v] user];
        [reflexivity | discriminate].
    - intros [-> ->]. reflexivity. }
  split; [assumption|]. split; [|split; [assumption|]].
  - unfold is_dict. rewrite Hk. apply NoDup_app; [assumption | apply dedup_NoDup|].
    intros x Hx C. now apply dedup_avoids_seen in C.
  - rewrite <- Hnil. destruct (dict_update base user); simpl.
    + split; [reflexivity | intros _; now left].
    + split; [contradiction | discriminate].
Qed.

Lemma merged_corpus_keeps_base_order_witness :
  exists merged lg,
    load_foods_merged kale_fs = (Ok merged, lg)
    /\ dict_keys merged
       = dict_keys kale_base ++ dedup (dict_keys kale_base) (dict_keys kale_override)
    /\ is_dict merged
    /\ (merged = [] <-> kale_base = [] /\ kale_override = [])
    /\ (In LogWarningEmptyCorpus lg <-> kale_base = [] /\ kale_override = []).
Proof.
  apply (merged_corpus_keeps_base_order kale_fs kale_base kale_override).
  - reflexivity.
  - reflexivity.
  - unfold is_dict. simpl. repeat constructor; simpl; intuition discriminate.
Defined.

(** X21.  Loading the preferences creates the users file, holding the
    empty mapping, when there is none, and never changes a file that
    exists, readable or not; it leaves the corpus files alone; and loading
    a second time gives the same mapping and the same log records as the
    first. *)
Theorem load_users_keeps_existing_files (fs : filesystem) :
  let fs' := fst (load_users fs) in
  (fs USERS_PATH = Missing -> fs' USERS_PATH = Holds (JObj []))
  /\ (forall p, fs p <> Missing \/ p <> USERS_PATH -> fs' p = fs p)
  /\ fs' USERS_PATH <> Missing
  /\ snd (load_users fs') = snd (load_users fs)
  /\ (forall p, fst (load_users fs') p = fs' p).
Proof.
  unfold load_users, _ensure_user_files, _save_json_dict, _load_json_dict,
    path_exists, write_file. simpl.
  destruct (fs USERS_PATH) as [| | |v] eqn:E; simpl; rewrite ?E; simpl;
    repeat split; try congruence; try discriminate.
  all: try (intros p [H|H]; destruct p; simpl; congruence).
  all: now rewrite E.
Qed.


(* ================================================================== *)
(** * What the replies of [cmd_food] refer to *)

Section Replies.
Variable title : str -> str.
Variables (FOODS : dict item) (ALIAS : dict str).


End Replies.



(* ================================================================== *)
(** * When a card is shown at once *)




(* ================================================================== *)
(** * How the indexer fails *)

Lemma as_dict_Raise (v : json) (e : exn) :
  as_dict v = Raise e -> e = AttributeError.
Proof. destruct v; simpl; congruence. Qed.

Lemma as_str_Raise (v : json) (e : exn) :
  as_str v = Raise e -> e = AttributeError.
Proof. destruct v; simpl; congruence. Qed.

Lemma iter_json_Raise (v : json) (e : exn) :
  iter_json v = Raise e -> e = TypeError.
Proof. destruct v; simpl; congruence. Qed.

Lemma bind_Raise {A B : Type} (m : result A) (k : A -> result B) (e : exn) :
  bind m k = Raise e -> m = Raise e \/ exists a, m = Ok a /\ k a = Raise e.
Proof.
  destruct m as [a|e']; simpl; intros H; [right; now exists a | left].
  now injection H as <-.
Qed.

Lemma make_item_Raise (key : str) (rec : json) (e : exn) :
  make_item key rec = Raise e -> e = AttributeError.
Proof.
  unfold make_item. intros H.
  apply bind_Raise in H. destruct H as [H|[d [_ H]]];
    [now apply as_dict_Raise in H|].
  apply bind_Raise in H. destruct H as [H|[n_en [_ H]]];
    [now apply as_str_Raise in H|].
  apply bind_Raise in H. destruct H as [H|[n_uk [_ H]]];
    [now apply as_str_Raise in H|].
  apply bind_Raise in H. destruct H as [H|[ef [_ H]]];
    [now apply as_str_Raise in H | discriminate].
Qed.

Lemma alias_sources_Raise (i : item) (e : exn) :
  alias_sources i = Raise e -> e = TypeError.
Proof.
  unfold alias_sources. intros H.
  apply bind_Raise in H. destruct H as [H|[se [_ H]]];
    [now apply iter_json_Raise in H|].
  apply bind_Raise in H. destruct H as [H|[su [_ H]]];
    [now apply iter_json_Raise in H | discriminate].
Qed.

Lemma register_aliases_Raise (canon : str) (ss : list json)
  (alias : dict str) (e : exn) :
  register_aliases canon ss alias = Raise e -> e = AttributeError.
Proof.
  revert alias. induction ss as [|s ss IH]; intros alias H; simpl in H;
    [discriminate|].
  apply bind_Raise in H. destruct H as [H|[ns [_ H]]]; [|now apply IH in H].
  unfold _norm_json in H. apply bind_Raise in H.
  destruct H as [H|[t [_ H]]]; [now apply as_str_Raise in H | discriminate].
Qed.

Lemma index_records_Raise (raw : dict json) (st : indexes) (e : exn) :
  index_records raw st = Raise e -> e = AttributeError \/ e = TypeError.
Proof.
  revert st. induction raw as [|[key rec] raw IH]; intros st H; simpl in H;
    [discriminate|].
  apply bind_Raise in H. destruct H as [H|[st' [_ H]]]; [|now apply IH in H].
  destruct st as [foods alias]. unfold index_record in H.
  apply bind_Raise in H. destruct H as [H|[i [_ H]]];
    [left; now apply make_item_Raise in H|].
  apply bind_Raise in H. destruct H as [H|[ss [_ H]]];
    [right; now apply alias_sources_Raise in H|].
  apply bind_Raise in H. destruct H as [H|[al [_ H]]];
    [left; now apply register_aliases_Raise in H | discriminate].
Qed.

(** X24.  Building the indexes fails in two ways only.  When
    [rebuild_indexes] raises, the exception is an [AttributeError] (a
    record that is no object, or a name, an effect or a synonym that is
    neither a string nor empty) or a [TypeError] (a corpus file that holds
    no object, or synonyms that cannot be iterated); it is never a
    [KeyError].  And when the indexer raises on a corpus, some record of
    that corpus is not well formed. *)
Theorem indexer_failure_modes (fs : filesystem) (e : exn) (lg : log) :
  rebuild_indexes fs = (Raise e, lg) ->
  (e = AttributeError \/ e = TypeError)
  /\ (load_foods_merged fs = (Raise e, lg) /\ e = TypeError
      \/ exists raw,
           load_foods_merged fs = (Ok raw, lg)
           /\ build_indexes raw = Raise e
           /\ ~ Forall (fun kv => well_formed_record (snd kv)) raw).
Proof.
  unfold rebuild_indexes.
  destruct (load_foods_merged fs) as [[raw|e'] lg'] eqn:El; simpl;
    intros H; injection H as H <-.
  - split; [now apply (index_records_Raise raw ([], []))|].
    right. exists raw. split; [reflexivity|]. split; [assumption|].
    intros Hw. destruct (build_indexes_total raw Hw) as [st Hst]. congruence.
  - subst e'.
    assert (Et : e = TypeError).
    { revert El. unfold load_foods_merged.
      destruct (_load_json_dict fs FOODS_PATH) as [base l1].
      destruct (if path_exists fs USER_FOODS_PATH
                then _load_json_dict fs USER_FOODS_PATH
                else (JObj [], [])) as [user l2].
      destruct (as_mapping base) as [b|e1] eqn:Eb;
        destruct (as_mapping user) as [u0|e2] eqn:Eu;
        intros H; try discriminate; injection H as <- _.
      - now apply as_mapping_Raise in Eu.
      - now apply as_mapping_Raise in Eb.
      - now apply as_mapping_Raise in Eb. }
    split; [now right|]. left. now split.
Qed.

Lemma indexer_failure_modes_witness :
  (AttributeError = AttributeError \/ AttributeError = TypeError)
  /\ (load_foods_merged bad_record_fs = (Raise AttributeError, [])
      /\ AttributeError = TypeError
      \/ exists raw,
           load_foods_merged bad_record_fs = (Ok raw, [])
           /\ build_indexes raw = Raise AttributeError
           /\ ~ Forall (fun kv => well_formed_record (snd kv)) raw).
Proof.
  apply (indexer_failure_modes bad_record_fs AttributeError []).
  vm_compute. reflexivity.
Defined.
